(** * nasmfmt: the NASM line recognizer and the block formatter

    A shallow embedding of the [nasm] package (token recognizers, line parser)
    and of the [nasmfmt] package (block segmenter, column aligner, comment
    overlay).  Go strings are byte strings: they are modelled as [string],
    whose characters are the 256 byte values. *)

From Stdlib Require Import String Ascii List Bool Arith ZArith Lia.
Import ListNotations.
Open Scope string_scope.
Open Scope nat_scope.

(** ** Byte-string helpers (Go's [strings] package) *)

Module Str.

Definition tab : ascii := ascii_of_nat 9.
Definition nl : ascii := ascii_of_nat 10.
Definition vt : ascii := ascii_of_nat 11.
Definition ff : ascii := ascii_of_nat 12.
Definition cr : ascii := ascii_of_nat 13.
Definition sp : ascii := " "%char.
Definition dquote : ascii := ascii_of_nat 34.

(** [s[n:]] *)
Fixpoint drop (n : nat) (s : string) : string :=
  match n, s with
  | O, _ => s
  | S _, EmptyString => EmptyString
  | S n', String _ s' => drop n' s'
  end.

(** [s[:n]] *)
Fixpoint take (n : nat) (s : string) : string :=
  match n, s with
  | O, _ => EmptyString
  | S _, EmptyString => EmptyString
  | S n', String c s' => String c (take n' s')
  end.

(** [s[i:j]] *)
Definition slice (i j : nat) (s : string) : string := take (j - i) (drop i s).

Fixpoint rev_onto (s acc : string) : string :=
  match s with
  | EmptyString => acc
  | String c s' => rev_onto s' (String c acc)
  end.

Definition rev (s : string) : string := rev_onto s EmptyString.

(** [strings.Repeat(" ", n)]; a non-positive count is excluded by the callers
    or panics in Go, so the count is a natural number here. *)
Fixpoint spaces (n : nat) : string :=
  match n with
  | O => EmptyString
  | S n' => String sp (spaces n')
  end.

(** [strings.Index(s, c)] for a one-byte needle: [None] is Go's [-1]. *)
Fixpoint indexByte (c : ascii) (s : string) : option nat :=
  match s with
  | EmptyString => None
  | String d s' =>
      if Ascii.eqb c d then Some 0
      else match indexByte c s' with
           | Some i => Some (S i)
           | None => None
           end
  end.

(** [strings.Contains(s, c)] for a one-byte needle. *)
Definition containsByte (c : ascii) (s : string) : bool :=
  match indexByte c s with Some _ => true | None => false end.

(** [strings.TrimPrefix]. *)
Definition trimPrefix (p s : string) : string :=
  if String.prefix p s then drop (String.length p) s else s.

(** [strings.TrimSuffix]. *)
Definition trimSuffix (suffix s : string) : string :=
  if String.prefix (rev suffix) (rev s)
  then rev (drop (String.length suffix) (rev s))
  else s.

Definition bytes (l : list nat) : string :=
  string_of_list_ascii (map ascii_of_nat l).

(** The UTF-8 encodings of the code points for which Go's [unicode.IsSpace]
    holds: U+0009..U+000D, U+0020, U+0085, U+00A0, U+1680, U+2000..U+200A,
    U+2028, U+2029, U+202F, U+205F, U+3000. *)
Definition unicodeSpaces : list string :=
  map bytes
    ([[9]; [10]; [11]; [12]; [13]; [32]; [194; 133]; [194; 160]; [225; 154; 128]]
     ++ map (fun k => [226; 128; 128 + k]) (seq 0 11)
     ++ [[226; 128; 168]; [226; 128; 169]; [226; 128; 175]; [226; 129; 159];
         [227; 128; 128]]).

(** Byte length of the white-space rune [s] starts with, if it starts with one. *)
Definition leadingSpace (s : string) : option nat :=
  match filter (fun p => String.prefix p s) unicodeSpaces with
  | p :: _ => Some (String.length p)
  | [] => None
  end.

(** Byte length of the white-space rune the reversed string [r] ends with. *)
Definition trailingSpace (r : string) : option nat :=
  match filter (fun p => String.prefix (rev p) r) unicodeSpaces with
  | p :: _ => Some (String.length p)
  | [] => None
  end.

Fixpoint trimLeftFuel (fuel : nat) (s : string) : string :=
  match fuel with
  | O => s
  | S f =>
      match leadingSpace s with
      | Some k => trimLeftFuel f (drop k s)
      | None => s
      end
  end.

(** [strings.TrimLeftFunc(s, unicode.IsSpace)]: every stripped rune is at
    least one byte long, so [length s] rounds are enough. *)
Definition trimLeftSpace (s : string) : string :=
  trimLeftFuel (String.length s) s.

Fixpoint trimRevFuel (fuel : nat) (r : string) : string :=
  match fuel with
  | O => r
  | S f =>
      match trailingSpace r with
      | Some k => trimRevFuel f (drop k r)
      | None => r
      end
  end.

Definition trimRightSpace (s : string) : string :=
  rev (trimRevFuel (String.length s) (rev s)).

(** [strings.TrimSpace]. *)
Definition trimSpace (s : string) : string :=
  trimRightSpace (trimLeftSpace s).

Fixpoint splitAux (sep : ascii) (s cur : string) : list string :=
  match s with
  | EmptyString => [rev cur]
  | String c s' =>
      if Ascii.eqb c sep then rev cur :: splitAux sep s' EmptyString
      else splitAux sep s' (String c cur)
  end.

(** [strings.Split(s, sep)] for a one-byte separator: always at least one
    piece, the empty string splits into one empty piece. *)
Definition split (sep : ascii) (s : string) : list string :=
  splitAux sep s EmptyString.

(** [strings.Join]. *)
Fixpoint join (sep : string) (l : list string) : string :=
  match l with
  | [] => EmptyString
  | [x] => x
  | x :: rest => x ++ sep ++ join sep rest
  end.

(** ASCII lower-casing, what a case-insensitive keyword match compares. *)
Definition lower (c : ascii) : ascii :=
  let n := nat_of_ascii c in
  if (65 <=? n) && (n <=? 90) then ascii_of_nat (n + 32) else c.

End Str.

(** ** Character classes of Go's [regexp] (RE2 syntax) *)

Module Re.

(** [\s] is [[\t\n\f\r ]]. *)
Definition isSpace (c : ascii) : bool :=
  let n := nat_of_ascii c in
  (n =? 9) || (n =? 10) || (n =? 12) || (n =? 13) || (n =? 32).

(** [\w] is [[0-9A-Za-z_]]. *)
Definition isWord (c : ascii) : bool :=
  let n := nat_of_ascii c in
  ((48 <=? n) && (n <=? 57)) || ((65 <=? n) && (n <=? 90))
  || ((97 <=? n) && (n <=? 122)) || (n =? 95).

(** Length of the longest prefix of [s] whose bytes satisfy [p]: a greedy
    [p*] that never needs to give back. *)
Fixpoint span (p : ascii -> bool) (s : string) : nat :=
  match s with
  | EmptyString => 0
  | String c s' => if p c then S (span p s') else 0
  end.

End Re.

(** ** The [nasm] package: tokens and their recognizers *)

Module Nasm.

(** Modelled from the spec: [NoQuotes(line, repl)] is called by every
    recognizer but its body is not part of the sources at hand.  Following
    section 4.1: every byte strictly inside a quoted literal (delimited by a
    pair of equal quote characters, single or double, no nesting, no escapes)
    is replaced by the placeholder; the delimiters and every byte outside a
    literal pass through.  A quote character with no closing partner opens no
    literal. *)
Fixpoint noQuotesFrom (inside : option ascii) (repl : string) (s : string)
  : string :=
  match s with
  | EmptyString => EmptyString
  | String c s' =>
      match inside with
      | Some q =>
          if Ascii.eqb c q then String c (noQuotesFrom None repl s')
          else repl ++ noQuotesFrom inside repl s'
      | None =>
          if (Ascii.eqb c Str.dquote || Ascii.eqb c "'"%char)
             && Str.containsByte c s'
          then String c (noQuotesFrom (Some c) repl s')
          else String c (noQuotesFrom None repl s')
      end
  end.

Definition NoQuotes (line repl : string) : string :=
  noQuotesFrom None repl line.

Record CommentToken := { Comment : string }.
Record SectionToken := { SecKeyword : string; Name : string }.
Record DirectiveToken := { DirKeyword : string; DirText : string }.
Record PseudoToken := { PLabel : string; PInstr : string; PText : string }.
Record LabelToken := { Label : string }.
Record InstructionToken := { Instr : string; Args : list string }.

(** The closed set of implementations of the [Token] interface. *)
Inductive Token :=
| TComment (t : CommentToken)
| TSection (t : SectionToken)
| TDirective (t : DirectiveToken)
| TPseudo (t : PseudoToken)
| TLabel (t : LabelToken)
| TInstruction (t : InstructionToken).

(** *** Keyword matching under [(?i)]

    Go folds case by Unicode simple folding: besides the two ASCII cases,
    [s] also matches U+017F (bytes C5 BF) and [k] matches U+212A (bytes
    E2 84 AA).  [matchFold kw s] is the number of bytes of [s] the keyword
    consumes. *)
Definition foldExtra (c : ascii) : option string :=
  if Ascii.eqb c "s"%char then Some (Str.bytes [197; 191])
  else if Ascii.eqb c "k"%char then Some (Str.bytes [226; 132; 170])
  else None.

Fixpoint matchFold (kw s : string) : option nat :=
  match kw with
  | EmptyString => Some 0
  | String k kw' =>
      match s with
      | EmptyString => None
      | String c s' =>
          if Ascii.eqb (Str.lower c) k
          then option_map S (matchFold kw' s')
          else match foldExtra k with
               | Some e =>
                   if String.prefix e s
                   then option_map (Nat.add (String.length e))
                          (matchFold kw' (Str.drop (String.length e) s))
                   else None
               | None => None
               end
      end
  end.

(** An alternation of keywords followed by a continuation [k]: the first
    alternative, in order, after which the rest of the pattern matches. *)
Fixpoint firstAlt {A} (kws : list string) (s : string)
  (k : nat -> string -> option A) : option A :=
  match kws with
  | [] => None
  | kw :: rest =>
      match matchFold kw s with
      | Some n =>
          match k n (Str.drop n s) with
          | Some r => Some r
          | None => firstAlt rest s k
          end
      | None => firstAlt rest s k
      end
  end.

Definition atEnd (s : string) : bool :=
  match s with EmptyString => true | _ => false end.

Definition notSemiSpace (c : ascii) : bool :=
  negb (Ascii.eqb c ";"%char) && negb (Re.isSpace c).

(** The whole-line pattern shared by [sectionRe] and [directiveRe], matched
    on [noq] without regard to case: optional white space, one keyword of
    [kws] (group 1), at least one white-space byte, a possibly empty run of
    bytes that are neither [;] nor white space (group 2), optional white
    space, end of text.  The result is the submatch indices
    [(ind[2], ind[3], ind[4], ind[5])].  Each star is greedy and no shorter
    choice can succeed where the longest fails, as the classes that follow
    each other are disjoint. *)
Definition keywordLineRe (kws : list string) (noq : string)
  : option (nat * nat * nat * nat) :=
  let a := Re.span Re.isSpace noq in
  firstAlt kws (Str.drop a noq) (fun n r1 =>
    let b := Re.span Re.isSpace r1 in
    if b =? 0 then None
    else
      let r2 := Str.drop b r1 in
      let c := Re.span notSemiSpace r2 in
      let r3 := Str.drop c r2 in
      let d := Re.span Re.isSpace r3 in
      if atEnd (Str.drop d r3)
      then Some (a, a + n, a + n + b, a + n + b + c)
      else None).

(** The recognizers take a [*Parser] that none of them uses; it is left
    out.  The keyword lists are those of the revision whose [Line] has one
    [Token] field. *)

(** *** Comment *)

Definition ParseCommentToken (line : string) : option Token * string :=
  let noq := NoQuotes line "x" in
  match Str.indexByte ";"%char noq with
  | None => (None, line)
  | Some idx =>
      let cmt := Str.drop (idx + 1) line in
      let cmt := if String.eqb cmt " " then cmt else Str.trimPrefix " " cmt in
      (Some (TComment {| Comment := cmt |}), Str.take idx line)
  end.

Definition CommentString (t : CommentToken) : string := "; " ++ Comment t.

(** *** Section and directive *)

Definition sectionKeywords : list string := ["section"; "segment"].

Definition ParseSectionToken (line : string) : option Token * string :=
  let noq := NoQuotes line "x" in
  match keywordLineRe sectionKeywords noq with
  | None => (None, line)
  | Some (i2, i3, i4, i5) =>
      (Some (TSection {| SecKeyword := Str.slice i2 i3 line;
                         Name := Str.slice i4 i5 line |}), "")
  end.

Definition SectionString (t : SectionToken) : string :=
  SecKeyword t ++ " " ++ Name t.

Definition directiveKeywords : list string :=
  ["default"; "absolute"; "extern"; "global"; "common"; "cpu"; "float"].

Definition ParseDirectiveToken (line : string) : option Token * string :=
  let noq := NoQuotes line "x" in
  match keywordLineRe directiveKeywords noq with
  | None => (None, line)
  | Some (i2, i3, i4, i5) =>
      (Some (TDirective {| DirKeyword := Str.slice i2 i3 line;
                           DirText := Str.slice i4 i5 line |}), "")
  end.

Definition DirectiveString (t : DirectiveToken) : string :=
  DirKeyword t ++ " " ++ DirText t.

(** *** Pseudo-instruction *)

Definition pseudoKeywords : list string :=
  ["db"; "dw"; "dd"; "dq"; "dt"; "ddq"; "do";
   "resb"; "resw"; "resd"; "resq"; "rest"; "resdq"; "reso"; "resy"; "resz";
   "incbin"; "equ"; "times"].

Definition isSpaceOrQuote (c : ascii) : bool :=
  Re.isSpace c || Ascii.eqb c Str.dquote.

(** The tail of [pseudoRe] from position [p] of the masked line, [s] being
    the text at [p]: a white-space byte or the start of the text, one keyword
    (group 2), then a white-space byte or a double quote.  The result is the
    span of group 2. *)
Definition pseudoTail (p : nat) (s : string) : option (nat * nat) :=
  let kw (q : nat) (t : string) :=
    firstAlt pseudoKeywords t (fun n r =>
      match r with
      | String c _ => if isSpaceOrQuote c then Some (q, q + n) else None
      | EmptyString => None
      end) in
  let bySpace :=
    match s with
    | String c s' => if Re.isSpace c then kw (p + 1) s' else None
    | EmptyString => None
    end in
  match bySpace with
  | Some r => Some r
  | None => if p =? 0 then kw p s else None
  end.

(** [pseudoRe] is unanchored, but its lazy first group can absorb any prefix
    of a line, so a match, if there is one, starts at offset 0.  The group is
    tried at every length [k] from the shortest; at each length the optional
    colon is tried taken first, then skipped.  [s] is the text at offset [k].
    The result is [(idx[3], idx[4], idx[5])], [idx[2]] being 0. *)
Fixpoint pseudoSearch (k : nat) (s : string) : option (nat * nat * nat) :=
  let here :=
    let withColon :=
      match s with
      | String c s' =>
          if Ascii.eqb c ":"%char then pseudoTail (k + 1) s' else None
      | EmptyString => None
      end in
    match withColon with
    | Some r => Some r
    | None => pseudoTail k s
    end in
  match here with
  | Some (i4, i5) => Some (k, i4, i5)
  | None =>
      match s with
      | String _ s' => pseudoSearch (k + 1) s'
      | EmptyString => None
      end
  end.

Definition ParsePseudoToken (line : string) : option Token * string :=
  let noq := NoQuotes line "x" in
  match pseudoSearch 0 noq with
  | None => (None, line)
  | Some (i3, i4, i5) =>
      (Some (TPseudo {| PLabel := Str.trimSpace (Str.slice 0 i3 line);
                        PInstr := Str.slice i4 i5 line;
                        PText := Str.trimSpace (Str.drop i5 line) |}), "")
  end.

Definition PseudoString (t : PseudoToken) : string :=
  PLabel t ++ String Str.tab (PInstr t ++ String Str.tab (PText t)).

(** *** Label *)

Definition ParseLabelToken (line : string) : option Token * string :=
  let noq := NoQuotes line "x" in
  match Str.indexByte ":"%char noq with
  | None => (None, line)
  | Some idx =>
      let label := Str.trimSpace (Str.take idx line) in
      let rest := Str.drop (idx + 1) line in
      if Str.containsByte "["%char rest && Str.containsByte "]"%char rest
      then (None, line)
      else (Some (TLabel {| Label := label |}), rest)
  end.

Definition LabelString (t : LabelToken) : string := Label t ++ ":".

(** *** Instruction *)

(** [instrRe], optional white space then a run of word bytes (group 1),
    searched leftmost in the text [s] that starts at offset [pos]: the span
    of group 1. *)
Fixpoint instrSearch (pos : nat) (s : string) : option (nat * nat) :=
  let n := Re.span Re.isSpace s in
  let w := Re.span Re.isWord (Str.drop n s) in
  if 0 <? w then Some (pos + n, pos + n + w)
  else match s with
       | String _ s' => instrSearch (pos + 1) s'
       | EmptyString => None
       end.

Definition ParseInstructionToken (line : string) : option Token * string :=
  let line := Str.trimLeftSpace line in
  let noq := NoQuotes line "x" in
  match instrSearch 0 noq with
  | None => (None, line)
  | Some (i2, i3) =>
      let instr := Str.slice i2 i3 line in
      let rest := Str.drop i3 line in
      let args := map Str.trimSpace (Str.split ","%char rest) in
      (Some (TInstruction {| Instr := instr; Args := args |}), "")
  end.

Definition InstructionString (t : InstructionToken) : string :=
  if 0 <? List.length (Args t)
  then Instr t ++ String Str.tab (Str.join ", " (Args t))
  else Instr t.

(** [Token.String]. *)
Definition TokenString (t : Token) : string :=
  match t with
  | TComment c => CommentString c
  | TSection c => SectionString c
  | TDirective c => DirectiveString c
  | TPseudo c => PseudoString c
  | TLabel c => LabelString c
  | TInstruction c => InstructionString c
  end.

Definition TokenParsers : list (string -> option Token * string) :=
  [ParseCommentToken; ParseSectionToken; ParseDirectiveToken;
   ParsePseudoToken; ParseLabelToken; ParseInstructionToken].

(** *** Lines

    [Line] is the record the formatter consumes: at most one structural
    token, and a comment whose zero value means that there is none. *)
Record Line := { LToken : option Token; LComment : CommentToken }.

Definition noComment : CommentToken := {| Comment := "" |}.

Definition commentIsZero (c : CommentToken) : bool := String.eqb (Comment c) "".

Definition IsEmpty (l : Line) : bool :=
  match LToken l with
  | None => commentIsZero (LComment l)
  | Some _ => false
  end.

(** The line parser at hand collects every token a line yields in
    [Tokens], the comment apart. *)
Record TokenLine := { Tokens : list Token; TLComment : CommentToken }.

Definition TokenLineIsEmpty (l : TokenLine) : bool :=
  (List.length (Tokens l) =? 0) && commentIsZero (TLComment l).

(** [PopToken[CommentToken]]: the first comment of the list, or the zero
    value, and the list without it. *)
Fixpoint PopComment (tokens : list Token) : CommentToken * list Token :=
  match tokens with
  | [] => (noComment, [])
  | TComment c :: rest => (c, rest)
  | t :: rest => let (c, rest') := PopComment rest in (c, t :: rest')
  end.

(** The loop of [ParseLine] over the recognizers still to run: the tokens
    collected and the text left. *)
Fixpoint runParsers (ps : list (string -> option Token * string))
  (line : string) : list Token * string :=
  match ps with
  | [] => ([], line)
  | parser :: rest =>
      let (token, line') := parser line in
      let here := match token with Some t => [t] | None => [] end in
      if String.eqb line' "" then (here, line')
      else let (more, final) := runParsers rest line' in
           ((here ++ more)%list, final)
  end.

(** What [ParseLine] returns: the line, or the text left over, which the
    fault "excess text" quotes. *)
Definition ParseLine (line : string) : TokenLine + string :=
  let (tokens, rest) := runParsers TokenParsers line in
  if String.eqb rest "" then
    let (comment, tokens') := PopComment tokens in
    inl {| Tokens := tokens'; TLComment := comment |}
  else inr rest.

(** *** Reading lines: [bufio.Scanner] with the default split function *)

Definition dropCR (s : string) : string :=
  match Str.rev s with
  | String c r => if Ascii.eqb c Str.cr then Str.rev r else s
  | EmptyString => s
  end.

(** [bufio.MaxScanTokenSize], 64 KiB: a line that does not fit the
    scanner's buffer together with its newline stops the scan with
    [bufio.ErrTooLong]. *)
Definition maxScanTokenSize : nat := 256 * 256.

Definition tooLong (cur : string) : bool :=
  maxScanTokenSize <=? String.length cur.

(** [bufio.ScanLines]: lines end at a newline, a carriage return before it
    is dropped, and a last line without a newline counts if it is not
    empty.  The flag tells whether the scan stopped at a line too long. *)
Fixpoint scanFrom (s cur : string) : list string * bool :=
  match s with
  | EmptyString =>
      match cur with
      | EmptyString => ([], false)
      | _ => if tooLong cur then ([], true) else ([dropCR (Str.rev cur)], false)
      end
  | String c s' =>
      if Ascii.eqb c Str.nl then
        if tooLong cur then ([], true)
        else let (more, err) := scanFrom s' EmptyString in
             (dropCR (Str.rev cur) :: more, err)
      else scanFrom s' (String c cur)
  end.

Definition scanLines (s : string) : list string * bool :=
  scanFrom s EmptyString.

Inductive ParseError :=
| ErrAtLine (lineIdx : nat) (excess : string)
| ErrTooLong.

(** The loop of [ParseLines]: [lineIdx] counts from 0, and the lines parsed
    so far are returned next to the fault.  [scanErr] is [scanner.Err()]. *)
Fixpoint parseFrom (lineIdx : nat) (src : list string) (scanErr : bool)
  (lines : list TokenLine) : list TokenLine * option ParseError :=
  match src with
  | [] => (lines, if scanErr then Some ErrTooLong else None)
  | text :: rest =>
      match ParseLine text with
      | inr excess => (lines, Some (ErrAtLine lineIdx excess))
      | inl line => parseFrom (lineIdx + 1) rest scanErr (lines ++ [line])%list
      end
  end.

Definition ParseLines (src : string) : list TokenLine * option ParseError :=
  let (texts, scanErr) := scanLines src in
  parseFrom 0 texts scanErr [].

(** Modelled from the spec: [nasm.Parse], which hands the formatter lines
    with a single [Token] field, is not part of the sources at hand.  By
    sections 3 and 4.3 it runs the same recognizer chain on every physical
    line, fails as a whole on the first faulty line, and keeps per line one
    structural token, here the first one the chain produced, beside the
    comment. *)
Definition toLine (l : TokenLine) : Line :=
  {| LToken := hd_error (Tokens l); LComment := TLComment l |}.

Definition Parse (src : string) : list Line + ParseError :=
  match ParseLines src with
  | (lines, None) => inl (map toLine lines)
  | (_, Some e) => inr e
  end.

(** *** Rendering lines *)

(** [Line.String]: the token and the comment that are there, a tab after
    the token, one tab trimmed at the end. *)
Definition LineString (l : Line) : string :=
  let tok := match LToken l with
             | Some t => TokenString t ++ String Str.tab ""
             | None => ""
             end in
  let cmt := if commentIsZero (LComment l) then ""
             else CommentString (LComment l) in
  Str.trimSuffix (String Str.tab "") (tok ++ cmt).

Fixpoint linesBuffer (ls : list Line) : string :=
  match ls with
  | [] => ""
  | l :: rest => LineString l ++ String Str.nl (linesBuffer rest)
  end.

(** [Lines.String]: every line with a newline, one newline trimmed at the
    end. *)
Definition LinesString (ls : list Line) : string :=
  Str.trimSuffix (String Str.nl "") (linesBuffer ls).

Fixpoint tokensBuffer (ts : list Token) : string :=
  match ts with
  | [] => ""
  | t :: rest => TokenString t ++ String Str.tab (tokensBuffer rest)
  end.

(** [Line.String] of the line that collects its tokens in a slice: every
    token, then the comment whether it is there or not, a tab after each,
    one tab trimmed at the end. *)
Definition TokenLineString (l : TokenLine) : string :=
  Str.trimSuffix (String Str.tab "")
    (tokensBuffer (Tokens l ++ [TComment (TLComment l)])%list).

(** *** Searching a token list by type

    [HasToken], [FindToken] and [PopToken] take the type looked for as a
    type parameter [T]; the type assertion [token.(T)] is the partial
    projection [cast], and [zero] is the zero value of [T]. *)
Section ByType.

Context {T : Type} (cast : Token -> option T) (zero : T).



(** [PopToken]: the returned slice is [tokens[:i]] followed by
    [tokens[i+1:]]. *)
Fixpoint PopToken (tokens : list Token) : T * list Token :=
  match tokens with
  | [] => (zero, [])
  | token :: rest =>
      match cast token with
      | Some t => (t, rest)
      | None => let (t, rest') := PopToken rest in (t, token :: rest')
      end
  end.

End ByType.

(** The type assertion [token.(CommentToken)]. *)
Definition asComment (token : Token) : option CommentToken :=
  match token with TComment c => Some c | _ => None end.

End Nasm.

(** ** Go's [unicode/utf8]: counting runes *)

Module Utf8.

Definition between (lo hi : nat) (c : ascii) : bool :=
  let n := nat_of_ascii c in (lo <=? n) && (n <=? hi).

Definition cont (c : ascii) : bool := between 128 191 c.

(** Number of bytes of the rune [s] starts with; an invalid or truncated
    encoding counts as a rune of one byte. *)
Definition runeLen (s : string) : nat :=
  match s with
  | EmptyString => 0
  | String c0 r0 =>
      let n := nat_of_ascii c0 in
      if n <? 128 then 1
      else
        (* size of the encoding and the range of its second byte *)
        let shape : option (nat * nat * nat) :=
          if between 194 223 c0 then Some (2, 128, 191)
          else if n =? 224 then Some (3, 160, 191)
          else if between 225 236 c0 then Some (3, 128, 191)
          else if n =? 237 then Some (3, 128, 159)
          else if between 238 239 c0 then Some (3, 128, 191)
          else if n =? 240 then Some (4, 144, 191)
          else if between 241 243 c0 then Some (4, 128, 191)
          else if n =? 244 then Some (4, 128, 143)
          else None in
        match shape with
        | None => 1
        | Some (size, lo, hi) =>
            match r0 with
            | String c1 r1 =>
                if negb (between lo hi c1) then 1
                else if size =? 2 then 2
                else match r1 with
                     | String c2 r2 =>
                         if negb (cont c2) then 1
                         else if size =? 3 then 3
                         else match r2 with
                              | String c3 _ => if cont c3 then 4 else 1
                              | EmptyString => 1
                              end
                     | EmptyString => 1
                     end
            | EmptyString => 1
            end
        end
  end.

Fixpoint runeCountFuel (fuel : nat) (s : string) : nat :=
  match fuel with
  | O => 0
  | S f =>
      match s with
      | EmptyString => 0
      | _ => S (runeCountFuel f (Str.drop (runeLen s) s))
      end
  end.

(** [utf8.RuneCount]. *)
Definition RuneCount (s : string) : nat := runeCountFuel (String.length s) s.

End Utf8.

(** ** Go's [text/tabwriter]

    The writer as [valign] configures it: [minwidth = 1], [tabwidth = 0],
    [padding = 1], [padchar = ' '], no flags.  Text is cut into cells at
    tab and vertical-tab bytes, into lines at newline and form-feed bytes;
    text between two [0xff] bytes is escaped and passes uncut. *)

Module Tabwriter.

Definition minwidth : nat := 1.
Definition padding : nat := 1.
Definition Escape : ascii := ascii_of_nat 255.

(** A cell: its bytes and its width in runes. *)
Record cell := { text : string; width : nat }.

(** A line has a cell in the current column when the cell is not the last
    of the line: the last cell of a line is never part of a column. *)
Definition hasColumn (l : list cell) : bool := 2 <=? List.length l.

Fixpoint spanBlock (ls : list (list cell))
  : list (list cell) * list (list cell) :=
  match ls with
  | l :: rest =>
      if hasColumn l
      then let (blk, after) := spanBlock rest in (l :: blk, after)
      else ([], ls)
  | [] => ([], [])
  end.

Definition headWidth (l : list cell) : nat :=
  match l with c :: _ => width c + padding | [] => 0 end.

(** Width of a column block: the widest cell plus the padding, and at least
    [minwidth]. *)
Definition blockWidth (blk : list (list cell)) : nat :=
  fold_left Nat.max (map headWidth blk) minwidth.

Definition padCell (w : nat) (l : list cell) (tail : string) : string :=
  match l with
  | c :: _ => text c ++ Str.spaces (w - width c) ++ tail
  | [] => tail
  end.

Fixpoint zipPad (w : nat) (blk : list (list cell)) (tails : list string)
  : list string :=
  match blk, tails with
  | l :: blk', t :: tails' => padCell w l t :: zipPad w blk' tails'
  | _, _ => []
  end.

Definition lastText (l : list cell) : string :=
  match l with c :: _ => text c | [] => "" end.

(** [format]: the lines from the current column on, one string per line.
    A run of lines with a cell in the column is a column block: its cells
    are padded to the block's width and the rest of its lines is formatted
    from the next column on.  Every call consumes a line or a column. *)
Fixpoint formatFuel (fuel : nat) (ls : list (list cell)) : list string :=
  match fuel with
  | O => []
  | S f =>
      match ls with
      | [] => []
      | l :: rest =>
          if hasColumn l then
            let (blk, after) := spanBlock ls in
            (zipPad (blockWidth blk) blk (formatFuel f (map (@tl cell) blk))
               ++ formatFuel f after)%list
          else lastText l :: formatFuel f rest
      end
  end.

Definition cellCount (ls : list (list cell)) : nat :=
  fold_right (fun l n => S (List.length l) + n) 0 ls.

Definition format (ls : list (list cell)) : list string :=
  formatFuel (S (cellCount ls)) ls.

(** The buffered lines as they are written: a newline after every line but
    the last buffered one. *)
Definition render (ls : list (list cell)) : string :=
  Str.join (String Str.nl "") (format ls).

Record Writer := {
  output : string;            (* bytes written to the underlying writer *)
  lines : list (list cell);   (* the terminated lines, oldest first *)
  line : list cell;           (* the terminated cells of the current line *)
  ctext : string;             (* the bytes of the current cell *)
  seg : string;               (* its bytes not yet counted in [cwidth] *)
  cwidth : nat;               (* its width so far *)
  esc : bool                  (* inside an escaped segment *)
}.

Definition NewWriter : Writer :=
  {| output := ""; lines := []; line := []; ctext := ""; seg := "";
     cwidth := 0; esc := false |}.

Definition snoc (s : string) (c : ascii) : string := s ++ String c "".

Definition isCellEnd (c : ascii) : bool :=
  Ascii.eqb c Str.tab || Ascii.eqb c Str.vt.

Definition isLineEnd (c : ascii) : bool :=
  Ascii.eqb c Str.nl || Ascii.eqb c Str.ff.

(** One byte of [Write]. *)
Definition writeByte (b : Writer) (c : ascii) : Writer :=
  if esc b then
    if Ascii.eqb c Escape then
      (* endEscape: the two escape bytes do not count *)
      {| output := output b; lines := lines b; line := line b;
         ctext := snoc (ctext b) c; seg := "";
         cwidth := cwidth b + Utf8.RuneCount (snoc (seg b) c) - 2;
         esc := false |}
    else
      {| output := output b; lines := lines b; line := line b;
         ctext := snoc (ctext b) c; seg := snoc (seg b) c;
         cwidth := cwidth b; esc := true |}
  else if isCellEnd c || isLineEnd c then
    let done := {| text := ctext b;
                   width := cwidth b + Utf8.RuneCount (seg b) |} in
    let line' := (line b ++ [done])%list in
    if isLineEnd c then
      let lines' := (lines b ++ [line'])%list in
      if Ascii.eqb c Str.ff || (List.length line' =? 1) then
        (* a form feed, or a line of one cell: flush what is buffered *)
        {| output := output b ++ render (lines' ++ [[]]);
           lines := []; line := []; ctext := ""; seg := ""; cwidth := 0;
           esc := false |}
      else
        {| output := output b; lines := lines'; line := [];
           ctext := ""; seg := ""; cwidth := 0; esc := false |}
    else
      {| output := output b; lines := lines b; line := line';
         ctext := ""; seg := ""; cwidth := 0; esc := false |}
  else if Ascii.eqb c Escape then
    {| output := output b; lines := lines b; line := line b;
       ctext := snoc (ctext b) c; seg := String c "";
       cwidth := cwidth b + Utf8.RuneCount (seg b); esc := true |}
  else
    {| output := output b; lines := lines b; line := line b;
       ctext := snoc (ctext b) c; seg := snoc (seg b) c;
       cwidth := cwidth b; esc := false |}.

Fixpoint Write (b : Writer) (buf : string) : Writer :=
  match buf with
  | EmptyString => b
  | String c rest => Write (writeByte b c) rest
  end.

(** [Flush]: a pending cell is terminated, everything buffered is
    formatted; the result is all that reached the underlying writer. *)
Definition Flush (b : Writer) : string :=
  let last :=
    match ctext b with
    | EmptyString => line b
    | _ => (line b ++ [{| text := ctext b; width := cwidth b |}])%list
    end in
  output b ++ render (lines b ++ [last]).

End Tabwriter.

(** ** The [nasmfmt] package: block segmenter, aligner, comment overlay *)

Module Nasmfmt.

Import Nasm.

(** Go's [int] is 64 bits wide and wraps around. *)
Definition wrapInt (z : Z) : Z := ((z + 2 ^ 63) mod 2 ^ 64 - 2 ^ 63)%Z.

Record FormatConfig := {
  InstructionIndent : Z;  (* spaces before an instruction *)
  CommentIndent : Z       (* column of the comment of an instruction *)
}.

Definition Lines := list Line.

(** *** Block segmenter

    The slice [blocks] of [Format] is never empty: it is kept as the blocks
    before the last one and the last one.  A [nil] block is the empty list;
    appending a line makes a block non-nil for good. *)
Record Blocks := { closed : list Lines; cur : Lines }.

Definition blocksOf (b : Blocks) : list Lines := (closed b ++ [cur b])%list.

Definition initBlocks : Blocks := {| closed := []; cur := [] |}.

Definition addBlock (b : Blocks) : Blocks :=
  match cur b with
  | [] => b
  | _ => {| closed := (closed b ++ [cur b])%list; cur := [] |}
  end.

Definition addToBlock (line : Line) (b : Blocks) : Blocks :=
  {| closed := closed b; cur := (cur b ++ [line])%list |}.

Definition isSection (l : Line) : bool :=
  match LToken l with Some (TSection _) => true | _ => false end.

Definition isInstruction (l : Line) : bool :=
  match LToken l with Some (TInstruction _) => true | _ => false end.

(** One round of the loop of [Format] over the parsed lines.

    Modelled from the spec: the [LineIterator] that drives this loop and
    the one of [writeLinesNoComment] is not part of the sources at hand.
    By section 4.6 it preserves indices: it visits every line in order,
    [Current] being the line and [LineNum] its index. *)
Definition segmentStep (b : Blocks) (line : Line) : Blocks :=
  if IsEmpty line then addBlock b
  else if isSection line then addBlock (addToBlock line (addBlock b))
  else addToBlock line b.

Definition segment (lines : Lines) : list Lines :=
  blocksOf (fold_left segmentStep lines initBlocks).

(** *** Column aligner *)

Definition valign (lines : list string) : string :=
  Tabwriter.Flush
    (fold_left
       (fun w l => Tabwriter.Write (Tabwriter.Write w l) (String Str.nl ""))
       lines Tabwriter.NewWriter).

(** The core string of one line; [None] is the panic of [strings.Repeat]
    on a negative count. *)
Definition lineNoComment (cfg : FormatConfig) (line : Line) : option string :=
  if IsEmpty line then Some ""
  else match LToken line with
       | None => Some ""
       | Some t =>
           if isInstruction line then
             if (InstructionIndent cfg <? 0)%Z then None
             else Some (Str.spaces (Z.to_nat (InstructionIndent cfg))
                        ++ TokenString t)
           else Some (TokenString t)
       end.

Fixpoint writeLinesNoComment (lines : Lines) (cfg : FormatConfig)
  : option (list string) :=
  match lines with
  | [] => Some []
  | l :: rest =>
      match lineNoComment cfg l, writeLinesNoComment rest cfg with
      | Some s, Some strs => Some (s :: strs)
      | _, _ => None
      end
  end.

(** *** Comment overlay *)

Fixpoint setNth (i : nat) (v : string) (l : list string) : list string :=
  match l, i with
  | [], _ => []
  | _ :: rest, O => v :: rest
  | x :: rest, S i' => x :: setNth i' v rest
  end.

Definition emptyLine : Line := {| LToken := None; LComment := noComment |}.

(** The padding between the aligned code [s] of an instruction and its
    comment. *)
Definition commentPad (cfg : FormatConfig) (s : string) : nat :=
  let indent := wrapInt (CommentIndent cfg - (Z.of_nat (String.length s) + 1)) in
  Z.to_nat (if (indent <? 1)%Z then 1%Z else indent).

(** The body of the overlay loop at index [i]: the new [lines[i]], or
    [None] where the loop goes on without writing. *)
Definition overlayAt (cfg : FormatConfig) (block : Lines) (lines : list string)
  (i : nat) : option string :=
  let s := nth i lines "" in
  let line := nth i block emptyLine in
  if commentIsZero (LComment line) then None
  else
    let s' :=
      match LToken line with
      | Some (TInstruction _) => s ++ Str.spaces (commentPad cfg s)
      | Some _ => s ++ String Str.tab ""
      | None =>
          if (0 <? i) && negb (String.eqb (nth (i - 1) lines "") "") then
            match Str.indexByte ";"%char (NoQuotes (nth (i - 1) lines "") "x") with
            | Some commentIx => s ++ Str.spaces commentIx
            | None => s
            end
          else s
      end in
    Some (s' ++ CommentString (LComment line)).

(** The overlay loop from index [i] on, [todo] lines being left to visit;
    it stops at the end of the block. *)
Fixpoint overlayFrom (cfg : FormatConfig) (block : Lines) (todo i : nat)
  (lines : list string) : list string :=
  match todo with
  | O => lines
  | S todo' =>
      if List.length block <=? i then lines
      else match overlayAt cfg block lines i with
           | None => overlayFrom cfg block todo' (S i) lines
           | Some s => overlayFrom cfg block todo' (S i) (setNth i s lines)
           end
  end.

Definition overlay (cfg : FormatConfig) (block : Lines) (lines : list string)
  : list string :=
  overlayFrom cfg block (List.length lines) 0 lines.

(** What [writeBlock] writes to [dst]. *)
Definition writeBlock (block : Lines) (cfg : FormatConfig) : option string :=
  match writeLinesNoComment block cfg with
  | None => None
  | Some strs =>
      let lines := Str.split Str.nl (valign strs) in
      Some (valign (overlay cfg block lines))
  end.

Fixpoint writeBlocks (blocks : list Lines) (cfg : FormatConfig)
  : option string :=
  match blocks with
  | [] => Some ""
  | b :: rest =>
      match writeBlock b cfg, writeBlocks rest cfg with
      | Some s, Some out => Some (s ++ out)
      | _, _ => None
      end
  end.

Inductive Result :=
| Written (out : string)        (* [nil] error: the bytes written to [dst] *)
| Fault (e : ParseError)        (* the error of [nasm.Parse] *)
| Panic.                        (* a run-time panic *)

Definition formatLines (lines : Lines) (cfg : FormatConfig) : Result :=
  match writeBlocks (segment lines) cfg with
  | Some out => Written out
  | None => Panic
  end.

Definition Format (src : string) (cfg : FormatConfig) : Result :=
  match Parse src with
  | inr e => Fault e
  | inl lines => formatLines lines cfg
  end.

Definition defaultConfig : FormatConfig :=
  {| InstructionIndent := 8; CommentIndent := 40 |}.

End Nasmfmt.

(** ** The formatter of the earlier revision (package [main])

    Its [format] segments the lines as [Format] does and its
    [writeLinesNoComment] is the same, the two widths being the globals
    [insIndent] and [commentIndent]; its [writeBlock] pads the comment of
    any other token with one space and joins the lines without aligning
    them again. *)

Module MainV1.

Import Nasm Nasmfmt.

(** The body of the overlay loop of [writeBlock] at index [i]. *)
Definition overlayAt (cfg : FormatConfig) (block : Lines) (lines : list string)
  (i : nat) : option string :=
  let s := nth i lines "" in
  let line := nth i block emptyLine in
  if commentIsZero (LComment line) then None
  else
    let s' :=
      match LToken line with
      | Some (TInstruction _) => s ++ Str.spaces (commentPad cfg s)
      | Some _ => s ++ Str.spaces 1
      | None =>
          if (0 <? i) && negb (String.eqb (nth (i - 1) lines "") "") then
            match Str.indexByte ";"%char (NoQuotes (nth (i - 1) lines "") "x") with
            | Some commentIx => s ++ Str.spaces commentIx
            | None => s
            end
          else s
      end in
    Some (s' ++ CommentString (LComment line)).

Fixpoint overlayFrom (cfg : FormatConfig) (block : Lines) (todo i : nat)
  (lines : list string) : list string :=
  match todo with
  | O => lines
  | S todo' =>
      if List.length block <=? i then lines
      else match overlayAt cfg block lines i with
           | None => overlayFrom cfg block todo' (S i) lines
           | Some s => overlayFrom cfg block todo' (S i) (setNth i s lines)
           end
  end.

Definition overlay (cfg : FormatConfig) (block : Lines) (lines : list string)
  : list string :=
  overlayFrom cfg block (List.length lines) 0 lines.

(** What [writeBlock] writes to [dst]. *)
Definition writeBlock (block : Lines) (cfg : FormatConfig) : option string :=
  match writeLinesNoComment block cfg with
  | None => None
  | Some strs =>
      let lines := Str.split Str.nl (valign strs) in
      Some (Str.join (String Str.nl "") (overlay cfg block lines)
            ++ String Str.nl "")
  end.

Fixpoint writeBlocks (blocks : list Lines) (cfg : FormatConfig)
  : option string :=
  match blocks with
  | [] => Some ""
  | b :: rest =>
      match writeBlock b cfg, writeBlocks rest cfg with
      | Some s, Some out => Some (s ++ out)
      | _, _ => None
      end
  end.

Definition format (src : string) (cfg : FormatConfig) : Result :=
  match Parse src with
  | inr e => Fault e
  | inl lines =>
      match writeBlocks (segment lines) cfg with
      | Some out => Written out
      | None => Panic
      end
  end.

End MainV1.

(** ** Properties *)

Module Props.

Import Nasm Nasmfmt Tabwriter.

(** *** Vocabulary of the statements *)

(** A source text from its physical lines. *)
Definition unlines (l : list string) : string := Str.join (String Str.nl "") l.

Definition tabbed (a b : string) : string := a ++ String Str.tab b.

(** The (mnemonic, operand list) pairs of the instruction lines, in order. *)
Fixpoint instructions (lines : Lines) : list (string * list string) :=
  match lines with
  | [] => []
  | l :: rest =>
      match LToken l with
      | Some (TInstruction t) => (Instr t, Args t) :: instructions rest
      | _ => instructions rest
      end
  end.

Definition instructionsOf (src : string) : option (list (string * list string)) :=
  match Parse src with
  | inl lines => Some (instructions lines)
  | inr _ => None
  end.

(** Sample lines for the instances. *)
Definition sampleInstr : Line :=
  {| LToken := Some (TInstruction {| Instr := "mov"; Args := ["a"] |});
     LComment := {| Comment := "c" |} |}.

Definition sampleLabel : Line :=
  {| LToken := Some (TLabel {| Label := "a" |});
     LComment := {| Comment := "c" |} |}.

(** Number of newline bytes of a string, of strings, of the cells of a
    line, of buffered lines. *)
Fixpoint countNl (s : string) : nat :=
  match s with
  | EmptyString => 0
  | String c s' => (if Ascii.eqb c Str.nl then 1 else 0) + countNl s'
  end.

Definition sumNl (l : list string) : nat :=
  fold_right (fun s n => countNl s + n) 0 l.

Definition cellsNl (l : list cell) : nat := sumNl (map text l).

Definition linesNl (ls : list (list cell)) : nat :=
  fold_right (fun l n => cellsNl l + n) 0 ls.

(** [s] ends with [suffix]. *)
Definition endsWith (suffix s : string) : Prop := exists p, s = p ++ suffix.

Definition lastCellText (l : list cell) : string := last (map text l) "".

Definition nlStr : string := String Str.nl "".

(** The newlines a writer has written or holds: those of its output, one
    per buffered line, and those escaped inside cells. *)
Definition pendingNl (b : Writer) : nat :=
  countNl (output b) + List.length (lines b) + linesNl (lines b)
  + cellsNl (line b) + countNl (ctext b).

(** The cell a terminator closes. *)
Definition doneCell (b : Writer) : cell :=
  {| text := ctext b; width := cwidth b + Utf8.RuneCount (seg b) |}.

(** One round of the loop of [valign]. *)
Definition alignStep (w : Writer) (l : string) : Writer :=
  Write (Write w l) (String Str.nl "").

(** A section line of a block is the only line of the block. *)
Definition sectionAlone (blk : Lines) : Prop :=
  forall l, In l blk -> isSection l = true -> blk = [l].

(** The invariant of the segmenter: the blocks before the last are not
    [nil] and keep their section lines alone; the last block has none. *)
Definition segmentInv (b : Blocks) : Prop :=
  Forall (fun blk => blk <> [] /\ sectionAlone blk) (closed b) /\
  Forall (fun l => isSection l = false) (cur b).

Definition labelLine (name : string) : Line :=
  {| LToken := Some (TLabel {| Label := name |}); LComment := noComment |}.

Definition sectionLine : Line :=
  {| LToken := Some (TSection {| SecKeyword := "section"; Name := ".text" |});
     LComment := noComment |}.

(** A byte that neither ends a cell or a line nor starts an escape. *)
Definition plainByte (c : ascii) : bool :=
  negb (isCellEnd c || isLineEnd c || Ascii.eqb c Escape).

Fixpoint plain (s : string) : bool :=
  match s with
  | EmptyString => true
  | String c s' => plainByte c && plain s'
  end.

(** The lines, each followed by a newline. *)
Fixpoint terminated (ls : list string) : string :=
  match ls with
  | [] => ""
  | l :: rest => l ++ nlStr ++ terminated rest
  end.

(** A writer with nothing buffered but the plain text [x] of a first cell. *)
Definition idle (o x : string) (w : nat) : Writer :=
  {| output := o; lines := []; line := []; ctext := x; seg := x;
     cwidth := w; esc := false |}.

Definition nonEmpty (l : Line) : bool := negb (IsEmpty l).

(** The structural part of the chain, after the comment recognizer. *)
Definition structuralParsers : list (string -> option Token * string) :=
  [ParseSectionToken; ParseDirectiveToken; ParsePseudoToken; ParseLabelToken;
   ParseInstructionToken].

Definition goodShape (ts : list Token) : Prop :=
  match ts with
  | [] => True
  | [TComment _] => False
  | [_] => True
  | [TLabel _; TInstruction _] => True
  | _ => False
  end.

Fixpoint hasWord (s : string) : bool :=
  match s with
  | EmptyString => false
  | String c s' => Re.isWord c || hasWord s'
  end.

Fixpoint wordOnly (s : string) : bool :=
  match s with
  | EmptyString => true
  | String c s' => Re.isWord c && wordOnly s'
  end.

Definition cleanOperand (a : string) : Prop :=
  Str.containsByte ","%char a = false /\ Str.trimSpace a = a.

Fixpoint quoteFree (s : string) : bool :=
  match s with
  | EmptyString => true
  | String c s' =>
      negb (Ascii.eqb c Str.dquote || Ascii.eqb c "'"%char) && quoteFree s'
  end.

(** The column a stand-alone comment is moved to: that of the first [;]
    outside quotes of the line above, if that line is not empty. *)
Definition alignTo (prev : string) : nat :=
  if String.eqb prev "" then 0
  else match Str.indexByte ";"%char (NoQuotes prev "x") with
       | Some commentIx => commentIx
       | None => 0
       end.

Definition blankByte (c : ascii) : bool :=
  Ascii.eqb c " "%char || Ascii.eqb c Str.tab.

Fixpoint blankOnly (s : string) : bool :=
  match s with
  | EmptyString => true
  | String c s' => blankByte c && blankOnly s'
  end.

(** A block line whose comment the two revisions pad alike: an instruction,
    a line without token, or a line without comment. *)
Definition paddedAlike (l : Line) : bool :=
  isInstruction l
  || match LToken l with None => true | Some _ => false end
  || commentIsZero (LComment l).

Definition commentLine (body : string) : Line :=
  {| LToken := None; LComment := {| Comment := body |} |}.

Definition parsedLabel (name : string) : TokenLine :=
  {| Tokens := [TLabel {| Label := name |}]; TLComment := noComment |}.

Fixpoint nameOnly (s : string) : bool :=
  match s with
  | EmptyString => true
  | String c s' => notSemiSpace c && nameOnly s'
  end.

(** What [keywordLineRe] asks of the text [r1] after a keyword of [n] bytes
    found at offset [a]. *)
Definition keywordTail (a n : nat) (r1 : string)
  : option (nat * nat * nat * nat) :=
  let b := Re.span Re.isSpace r1 in
  if b =? 0 then None
  else
    let r2 := Str.drop b r1 in
    let c := Re.span notSemiSpace r2 in
    let r3 := Str.drop c r2 in
    let d := Re.span Re.isSpace r3 in
    if atEnd (Str.drop d r3)
    then Some (a, a + n, a + n + b, a + n + b + c)
    else None.

(** C1 (fails on the code): formatting the one-line source [a:] yields the
    label and a blank line; formatting that output again yields one more
    blank line, as the trailing blank line opens a further, empty block. *)
Theorem format_twice_appends_newline :
  forall cfg,
    Format "a:" cfg = Written (unlines ["a:"; ""; ""]) /\
    Format (unlines ["a:"; ""; ""]) cfg = Written (unlines ["a:"; ""; ""; ""]).
Proof. intros cfg; split; vm_compute; reflexivity. Qed.

(** C2 (fails on the code): a tab inside a quoted operand is a cell
    separator for the column aligner, which replaces it by padding; the
    operand list extracted from the output differs from that of the input. *)
Theorem roundtrip_breaks_on_tab_in_literal :
  let src := tabbed "push 'a" "b'" in
  instructionsOf src = Some [("push", [tabbed "'a" "b'"])] /\
  Format src defaultConfig = Written (unlines ["        push 'a b'"; ""; ""]) /\
  instructionsOf (unlines ["        push 'a b'"; ""; ""])
  = Some [("push", ["'a b'"])].
Proof. repeat split; vm_compute; reflexivity. Qed.

(** C5 (fails on the code): an instruction with nothing after its mnemonic
    gets one operand, the empty string, not zero operands, and is rendered
    with a column separator after the mnemonic. *)
Theorem bare_mnemonic_has_one_empty_operand :
  ParseInstructionToken "syscall"
  = (Some (TInstruction {| Instr := "syscall"; Args := [""] |}), "") /\
  InstructionString {| Instr := "syscall"; Args := [""] |}
  = tabbed "syscall" "".
Proof. split; vm_compute; reflexivity. Qed.

(** C7: the line [db ";foo"] is a pseudo-instruction with keyword [db] and
    operand text [";foo"] in its quotes; the comment recognizer declines it
    and the line carries no comment. *)
Theorem quote_safety :
  let quoted := String Str.dquote (";foo" ++ String Str.dquote "") in
  let line := "db " ++ quoted in
  ParseCommentToken line = (None, line) /\
  ParsePseudoToken line
  = (Some (TPseudo {| PLabel := ""; PInstr := "db"; PText := quoted |}), "") /\
  ParseLine line
  = inl {| Tokens := [TPseudo {| PLabel := ""; PInstr := "db";
                                 PText := quoted |}];
           TLComment := noComment |}.
Proof. repeat split; vm_compute; reflexivity. Qed.

(** C9 (fails on the code): the line [;] is neither blank nor white space,
    yet its comment is the zero value and the parsed line is empty; the
    formatter drops it like a blank line. *)
Theorem bare_semicolon_line_is_empty :
  ParseLine ";" = inl {| Tokens := []; TLComment := {| Comment := "" |} |} /\
  TokenLineIsEmpty {| Tokens := []; TLComment := {| Comment := "" |} |} = true /\
  IsEmpty (toLine {| Tokens := []; TLComment := {| Comment := "" |} |}) = true /\
  Str.trimSpace ";" = ";" /\
  Format (unlines ["; a"; ";"; "; b"]) defaultConfig
  = Written (unlines ["; a"; ""; "; b"; ""; ""]).
Proof. repeat split; vm_compute; reflexivity. Qed.

(** The scenarios of the spec, as checks of the model. *)
Example scenario_comment_column :
  Format "mov rax,1 ;write(fd, buf, len)" defaultConfig
  = Written (unlines
      ["        mov rax, 1                     ; write(fd, buf, len)"; ""; ""]) /\
  Str.indexByte ";"%char
    "        mov rax, 1                     ; write(fd, buf, len)" = Some 39.
Proof. split; vm_compute; reflexivity. Qed.

Example scenario_pseudo :
  ParseLine "msglen equ $-msg"
  = inl {| Tokens := [TPseudo {| PLabel := "msglen"; PInstr := "equ";
                                 PText := "$-msg" |}];
           TLComment := noComment |} /\
  PseudoString {| PLabel := "msglen"; PInstr := "equ"; PText := "$-msg" |}
  = tabbed "msglen" (tabbed "equ" "$-msg").
Proof. split; vm_compute; reflexivity. Qed.

(** *** Facts on byte strings and on the overlay loop *)

Lemma append_assoc (a b c : string) : (a ++ b) ++ c = a ++ (b ++ c).
Proof. induction a as [|x a IH]; simpl; congruence. Qed.

Section Overlay.
Variable cfg : FormatConfig.
Variable block : Lines.

Lemma setNth_length i v l : List.length (setNth i v l) = List.length l.
Proof. revert i; induction l as [|x l IH]; intros [|i]; simpl; auto. Qed.

Lemma nth_setNth_eq i v l d : i < List.length l -> nth i (setNth i v l) d = v.
Proof.
  revert i; induction l as [|x l IH]; intros [|i] H; simpl in *; try lia; auto.
  apply IH; lia.
Qed.

Lemma nth_setNth_neq i j v l d : i <> j -> nth j (setNth i v l) d = nth j l d.
Proof.
  revert i j; induction l as [|x l IH]; intros [|i] [|j] H; simpl; auto; try lia.
Qed.

Lemma overlayFrom_length todo : forall i lines,
  List.length (overlayFrom cfg block todo i lines) = List.length lines.
Proof.
  induction todo as [|todo IH]; intros i lines; simpl; auto.
  destruct (List.length block <=? i); auto.
  destruct (overlayAt cfg block lines i); rewrite IH; auto using setNth_length.
Qed.

Lemma overlayFrom_below todo : forall i lines j, j < i ->
  nth j (overlayFrom cfg block todo i lines) "" = nth j lines "".
Proof.
  induction todo as [|todo IH]; intros i lines j H; simpl; auto.
  destruct (List.length block <=? i); auto.
  destruct (overlayAt cfg block lines i).
  - rewrite IH by lia. apply nth_setNth_neq; lia.
  - apply IH; lia.
Qed.

(** What the loop leaves at index [i]: the body of the loop applied to an
    array that still holds the aligned line at [i]. *)
Lemma overlayFrom_at todo : forall i0 lines i,
  i0 <= i < i0 + todo -> i < List.length block -> i < List.length lines ->
  exists lines',
    nth i lines' "" = nth i lines "" /\
    nth i (overlayFrom cfg block todo i0 lines) ""
    = match overlayAt cfg block lines' i with
      | Some s => s
      | None => nth i lines ""
      end.
Proof.
  induction todo as [|todo IH]; intros i0 lines i Hi Hb Hl; [lia|].
  simpl. destruct (Nat.eq_dec i0 i) as [->|Hne].
  - destruct (Nat.leb_spec (List.length block) i); [lia|].
    exists lines; split; auto.
    destruct (overlayAt cfg block lines i) eqn:E.
    + rewrite overlayFrom_below by lia. apply nth_setNth_eq; auto.
    + apply overlayFrom_below; lia.
  - destruct (Nat.leb_spec (List.length block) i0); [lia|].
    destruct (overlayAt cfg block lines i0) eqn:E.
    + destruct (IH (S i0) (setNth i0 s lines) i) as (l' & H1 & H2);
        try lia; [rewrite setNth_length; auto|].
      rewrite nth_setNth_neq in H1, H2 by auto.
      exists l'; split; auto.
    + destruct (IH (S i0) lines i) as (l' & H1 & H2); try lia.
      exists l'; split; auto.
Qed.

Lemma overlay_at lines i :
  i < List.length block -> i < List.length lines ->
  exists lines',
    nth i lines' "" = nth i lines "" /\
    nth i (overlay cfg block lines) ""
    = match overlayAt cfg block lines' i with
      | Some s => s
      | None => nth i lines ""
      end.
Proof. intros Hb Hl. apply overlayFrom_at; auto; lia. Qed.

End Overlay.


(** C8 (amended): on a block line with a structural token that is not an
    instruction and a comment, the overlay appends to the aligned token
    text exactly one column separator, a tab, and then the comment, whatever
    the configured comment column. *)
Theorem comment_after_other_token :
  forall cfg block lines i line t,
    nth_error block i = Some line ->
    LToken line = Some t ->
    isInstruction line = false ->
    commentIsZero (LComment line) = false ->
    i < List.length lines ->
    nth i (overlay cfg block lines) ""
    = nth i lines "" ++ String Str.tab ("; " ++ Comment (LComment line)).
Proof.
  intros cfg block lines i line t Hnth Htok Hins Hcmt Hi.
  assert (Hb : i < List.length block)
    by (apply nth_error_Some; congruence).
  destruct (overlay_at cfg block lines i Hb Hi) as (lines' & Hs & Hov).
  unfold overlayAt in Hov.
  rewrite (nth_error_nth _ _ _ Hnth), Hcmt, Htok, Hs in Hov.
  rewrite Hov. unfold isInstruction in Hins. rewrite Htok in Hins.
  destruct t; try discriminate; unfold CommentString;
    rewrite append_assoc; reflexivity.
Qed.

Lemma comment_after_other_token_witness :
  nth 0 (overlay defaultConfig [sampleLabel] ["a:"; ""]) ""
  = "a:" ++ String Str.tab ("; " ++ "c").
Proof.
  apply (comment_after_other_token defaultConfig [sampleLabel] ["a:"; ""] 0
           sampleLabel (TLabel {| Label := "a" |}));
    try reflexivity; simpl; lia.
Defined.

(** C8 (as stated, fails): in the output the comments of two adjacent label
    lines start in the same column; four spaces, not one separator, stand
    between [a:] and its comment. *)
Lemma adjacent_comments_are_aligned :
  Format (unlines ["a: ;x"; "bbbb: ;y"]) defaultConfig
  = Written (unlines ["a:    ; x"; "bbbb: ; y"; ""; ""]).
Proof. vm_compute; reflexivity. Qed.

(** *** Splitting operands *)

Lemma splitAux_app sep a b : forall cur,
  Str.splitAux sep (a ++ String sep b) cur
  = (Str.splitAux sep a cur ++ Str.split sep b)%list.
Proof.
  induction a as [|c a IH]; intros cur; simpl.
  - rewrite Ascii.eqb_refl. reflexivity.
  - destruct (Ascii.eqb c sep); simpl; rewrite IH; reflexivity.
Qed.

Lemma split_app sep a b :
  Str.split sep (a ++ String sep b) = (Str.split sep a ++ Str.split sep b)%list.
Proof. apply splitAux_app. Qed.

Lemma splitAux_nonempty sep s : forall cur, Str.splitAux sep s cur <> [].
Proof.
  induction s as [|c s IH]; intros cur; simpl; [discriminate|].
  destruct (Ascii.eqb c sep); [discriminate|apply IH].
Qed.

(** C10 (amended): the operands of an instruction are split on the raw
    text after the mnemonic: a comma separates two operands also where the
    masked line shows it inside a quoted literal.  Each piece is trimmed and
    the rendering joins the pieces with a comma and a space. *)
Theorem operands_split_on_raw_text :
  forall line i2 i3 a b,
    instrSearch 0 (NoQuotes (Str.trimLeftSpace line) "x") = Some (i2, i3) ->
    Str.drop i3 (Str.trimLeftSpace line) = a ++ String ","%char b ->
    exists t,
      ParseInstructionToken line = (Some (TInstruction t), "") /\
      Instr t = Str.slice i2 i3 (Str.trimLeftSpace line) /\
      Args t = (map Str.trimSpace (Str.split ","%char a)
                ++ map Str.trimSpace (Str.split ","%char b))%list /\
      InstructionString t = tabbed (Instr t) (Str.join ", " (Args t)).
Proof.
  intros line i2 i3 a b Hre Hrest.
  unfold ParseInstructionToken. rewrite Hre, Hrest, split_app, map_app.
  eexists; repeat split.
  unfold InstructionString; simpl Args.
  destruct (Str.split ","%char a) eqn:E;
    [exfalso; revert E; apply splitAux_nonempty|reflexivity].
Qed.

Lemma operands_split_witness :
  exists t,
    ParseInstructionToken "mov al, 'a,b'" = (Some (TInstruction t), "") /\
    Instr t = "mov" /\
    Args t = ["al"; "'a"; "b'"] /\
    InstructionString t = tabbed "mov" "al, 'a, b'".
Proof.
  destruct (operands_split_on_raw_text "mov al, 'a,b'" 0 3 " al, 'a" "b'"
              eq_refl eq_refl) as (t & Hparse & Hinstr & Hargs & Hstr).
  exists t. rewrite Hstr, Hargs, Hinstr. repeat split. exact Hparse.
Defined.

(** C10 (as stated, fails): a literal whose comma is already followed by
    one space is split and joined back to the same bytes: its contents do
    not change. *)
Lemma literal_with_comma_space_unchanged :
  exists t,
    ParseInstructionToken "mov al, 'a, b'" = (Some (TInstruction t), "") /\
    Args t = ["al"; "'a"; "b'"] /\
    Str.join ", " (Args t) = "al, 'a, b'".
Proof. eexists; repeat split. Qed.

(** *** Faults of the line parser *)

Lemma parseFrom_fault : forall pre parsed bad rest excess scanErr n acc,
  Forall2 (fun text l => ParseLine text = inl l) pre parsed ->
  ParseLine bad = inr excess ->
  parseFrom n (pre ++ bad :: rest) scanErr acc
  = ((acc ++ parsed)%list, Some (ErrAtLine (n + List.length pre) excess)).
Proof.
  intros pre parsed bad rest excess scanErr n acc H Hbad.
  revert n acc. induction H as [|text l pre parsed Hl _ IH]; intros n acc; simpl.
  - rewrite Hbad, app_nil_r, Nat.add_0_r. reflexivity.
  - rewrite Hl, IH, <- app_assoc. simpl. do 3 f_equal. lia.
Qed.

(** C6 (amended): when the recognizer chain cannot fully consume a line
    and every line before it parses, [ParseLines] fails with a fault that
    carries the index of that line counted from 0 and the text left over;
    the lines parsed before it are returned next to the fault. *)
Theorem fault_reports_index_and_residue :
  forall src pre bad rest scanErr parsed excess,
    scanLines src = ((pre ++ bad :: rest)%list, scanErr) ->
    Forall2 (fun text l => ParseLine text = inl l) pre parsed ->
    ParseLine bad = inr excess ->
    ParseLines src = (parsed, Some (ErrAtLine (List.length pre) excess)).
Proof.
  intros src pre bad rest scanErr parsed excess Hscan Hpre Hbad.
  unfold ParseLines. rewrite Hscan.
  apply (parseFrom_fault pre parsed bad rest excess scanErr 0 [] Hpre Hbad).
Qed.

Lemma fault_reports_witness :
  ParseLines (unlines ["a:"; "["; "b:"])
  = ([{| Tokens := [TLabel {| Label := "a" |}]; TLComment := noComment |}],
     Some (ErrAtLine 1 "[")).
Proof.
  apply (fault_reports_index_and_residue _ ["a:"] "[" ["b:"] false).
  - vm_compute; reflexivity.
  - repeat constructor.
  - vm_compute; reflexivity.
Defined.

(** C6 (as stated, fails): a fault on the second line is reported as line 1,
    and the line parsed before it is returned with the fault. *)
Lemma fault_line_number_counts_from_zero :
  ParseLines (unlines ["a:"; "["])
  = ([{| Tokens := [TLabel {| Label := "a" |}]; TLComment := noComment |}],
     Some (ErrAtLine 1 "[")).
Proof. vm_compute; reflexivity. Qed.

(** *** The column aligner: facts on [format] *)

Lemma append_nil_r (a : string) : a ++ "" = a.
Proof. induction a as [|x a IH]; simpl; congruence. Qed.

Lemma cellCount_app a b : cellCount (a ++ b) = cellCount a + cellCount b.
Proof. induction a as [|l a IH]; simpl; [reflexivity|rewrite IH; lia]. Qed.

Lemma spanBlock_spec ls :
  forall blk after, spanBlock ls = (blk, after) ->
    ls = (blk ++ after)%list /\
    Forall (fun l => hasColumn l = true) blk /\
    match after with l :: _ => hasColumn l = false | [] => True end.
Proof.
  induction ls as [|l ls IH]; intros blk after H; simpl in H.
  - injection H as <- <-. repeat split; constructor.
  - destruct (hasColumn l) eqn:E.
    + destruct (spanBlock ls) as [blk' after'] eqn:E'.
      injection H as <- <-. destruct (IH _ _ eq_refl) as (H1 & H2 & H3).
      repeat split; [simpl; congruence|constructor; auto|auto].
    + injection H as <- <-. repeat split; [constructor|exact E].
Qed.

Lemma cellCount_tails blk :
  Forall (fun l => hasColumn l = true) blk ->
  cellCount (map (@tl cell) blk) + List.length blk = cellCount blk.
Proof.
  induction 1 as [|l blk Hl _ IH]; simpl; [reflexivity|].
  destruct l as [|c l]; [discriminate|]. simpl. lia.
Qed.

Lemma formatFuel_stable : forall f f' ls,
  cellCount ls < f -> cellCount ls < f' -> formatFuel f ls = formatFuel f' ls.
Proof.
  induction f as [|f IH]; intros f' ls Hf Hf'; [lia|].
  destruct f' as [|f']; [lia|]. simpl.
  destruct ls as [|l rest]; [reflexivity|].
  destruct (hasColumn l) eqn:E.
  - destruct (spanBlock (l :: rest)) as [blk after] eqn:Es.
    destruct (spanBlock_spec _ _ _ Es) as (Happ & Hblk & _).
    assert (Hne : blk <> []).
    { simpl in Es. rewrite E in Es. destruct (spanBlock rest).
      injection Es as <- _. discriminate. }
    assert (Hc : cellCount (l :: rest) = cellCount blk + cellCount after)
      by (rewrite Happ; apply cellCount_app).
    pose proof (cellCount_tails blk Hblk) as Ht.
    assert (0 < List.length blk) by (destruct blk; [congruence|simpl; lia]).
    assert (0 < cellCount blk) by (destruct blk; [congruence|simpl; lia]).
    rewrite (IH f' (map (@tl cell) blk)) by lia.
    rewrite (IH f' after) by lia. reflexivity.
  - simpl in Hf, Hf'. rewrite (IH f' rest) by lia. reflexivity.
Qed.

Lemma formatFuel_S f ls :
  formatFuel (S f) ls
  = match ls with
    | [] => []
    | l :: rest =>
        if hasColumn l then
          let (blk, after) := spanBlock ls in
          (zipPad (blockWidth blk) blk (formatFuel f (map (@tl cell) blk))
           ++ formatFuel f after)%list
        else lastText l :: formatFuel f rest
    end.
Proof. reflexivity. Qed.

Lemma format_nil : format [] = [].
Proof. reflexivity. Qed.

Lemma format_line l rest :
  hasColumn l = false -> format (l :: rest) = lastText l :: format rest.
Proof.
  intros E. unfold format at 1. rewrite formatFuel_S, E.
  f_equal. apply formatFuel_stable; simpl; lia.
Qed.

Lemma format_block l rest blk after :
  hasColumn l = true -> spanBlock (l :: rest) = (blk, after) ->
  format (l :: rest)
  = (zipPad (blockWidth blk) blk (format (map (@tl cell) blk))
     ++ format after)%list.
Proof.
  intros E Es. unfold format at 1.
  rewrite formatFuel_S, E, Es.
  destruct (spanBlock_spec _ _ _ Es) as (Happ & Hblk & _).
  assert (Hne : blk <> []).
  { simpl in Es. rewrite E in Es. destruct (spanBlock rest).
    injection Es as <- _. discriminate. }
  assert (Hc : cellCount (l :: rest) = cellCount blk + cellCount after)
    by (rewrite Happ; apply cellCount_app).
  pose proof (cellCount_tails blk Hblk) as Ht.
  assert (0 < List.length blk) by (destruct blk; [congruence|simpl; lia]).
  assert (0 < cellCount blk) by (destruct blk; [congruence|simpl; lia]).
  unfold format.
  rewrite (formatFuel_stable (cellCount (l :: rest))
             (S (cellCount (map (@tl cell) blk)))) by lia.
  rewrite (formatFuel_stable (cellCount (l :: rest))
             (S (cellCount after)) after) by lia.
  reflexivity.
Qed.

(** Induction along the calls of [format]. *)
Lemma format_ind (P : list (list cell) -> Prop) :
  P [] ->
  (forall l rest, hasColumn l = false -> P rest -> P (l :: rest)) ->
  (forall l rest blk after,
     hasColumn l = true -> spanBlock (l :: rest) = (blk, after) ->
     P (map (@tl cell) blk) -> P after -> P (l :: rest)) ->
  forall ls, P ls.
Proof.
  intros Hnil Hline Hblock ls.
  remember (cellCount ls) as n eqn:Hn.
  revert ls Hn. induction n as [n IH] using lt_wf_ind. intros ls Hn.
  destruct ls as [|l rest]; [exact Hnil|].
  destruct (hasColumn l) eqn:E.
  - destruct (spanBlock (l :: rest)) as [blk after] eqn:Es.
    destruct (spanBlock_spec _ _ _ Es) as (Happ & Hblk & _).
    assert (Hne : blk <> []).
    { simpl in Es. rewrite E in Es. destruct (spanBlock rest).
      injection Es as <- _. discriminate. }
    assert (Hc : cellCount (l :: rest) = cellCount blk + cellCount after)
      by (rewrite Happ; apply cellCount_app).
    pose proof (cellCount_tails blk Hblk) as Ht.
    assert (0 < List.length blk) by (destruct blk; [congruence|simpl; lia]).
    assert (0 < cellCount blk) by (destruct blk; [congruence|simpl; lia]).
    apply (Hblock l rest blk after E Es).
    + apply (IH (cellCount (map (@tl cell) blk))); [lia|reflexivity].
    + apply (IH (cellCount after)); [lia|reflexivity].
  - apply Hline; [exact E|].
    apply (IH (cellCount rest)); [simpl in Hn; lia|reflexivity].
Qed.

Lemma zipPad_length w : forall blk tails,
  List.length tails = List.length blk ->
  List.length (zipPad w blk tails) = List.length blk.
Proof.
  induction blk as [|l blk IH]; intros [|t tails] H; simpl in *; try lia.
  rewrite IH; lia.
Qed.

Lemma format_length ls : List.length (format ls) = List.length ls.
Proof.
  induction ls as [|l rest E IH|l rest blk after E Es IHt IHa] using format_ind.
  - reflexivity.
  - rewrite format_line by exact E. simpl. congruence.
  - rewrite (format_block _ _ _ _ E Es).
    destruct (spanBlock_spec _ _ _ Es) as (Happ & _ & _).
    rewrite Happ, !length_app, zipPad_length, IHa; [reflexivity|].
    rewrite IHt. apply length_map.
Qed.

Lemma spanBlock_snoc l : hasColumn l = false ->
  forall ls blk after, spanBlock ls = (blk, after) ->
    spanBlock (ls ++ [l]) = (blk, (after ++ [l])%list).
Proof.
  intros El. induction ls as [|x ls IH]; intros blk after H; simpl in *.
  - injection H as <- <-. rewrite El. reflexivity.
  - destruct (hasColumn x).
    + destruct (spanBlock ls) as [b a]. injection H as <- <-.
      rewrite (IH _ _ eq_refl). reflexivity.
    + injection H as <- <-. reflexivity.
Qed.

(** A line without a column ends the column blocks before it. *)
Lemma format_snoc l : hasColumn l = false ->
  forall ls, format (ls ++ [l]) = (format ls ++ [lastText l])%list.
Proof.
  intros El ls.
  induction ls as [|x rest E IH|x rest blk after E Es _ IHa] using format_ind.
  - simpl. rewrite format_line by exact El. reflexivity.
  - simpl. rewrite !format_line by exact E. rewrite IH. reflexivity.
  - change ((x :: rest) ++ [l])%list with (x :: (rest ++ [l]))%list.
    rewrite (format_block x (rest ++ [l]) blk (after ++ [l]) E
               (spanBlock_snoc l El (x :: rest) blk after Es)).
    rewrite (format_block _ _ _ _ E Es), IHa, app_assoc. reflexivity.
Qed.

Lemma countNl_app a b : countNl (a ++ b) = countNl a + countNl b.
Proof. induction a as [|c a IH]; simpl; [reflexivity|rewrite IH; lia]. Qed.

Lemma countNl_spaces n : countNl (Str.spaces n) = 0.
Proof. induction n; simpl; auto. Qed.

Lemma sumNl_app a b : sumNl (a ++ b) = sumNl a + sumNl b.
Proof. induction a as [|x a IH]; simpl; [reflexivity|rewrite IH; lia]. Qed.

Lemma linesNl_app a b : linesNl (a ++ b) = linesNl a + linesNl b.
Proof. induction a as [|x a IH]; simpl; [reflexivity|rewrite IH; lia]. Qed.

Lemma countNl_join xs :
  countNl (Str.join nlStr xs) + 1 = List.length xs + sumNl xs \/ xs = [].
Proof.
  induction xs as [|x xs IH]; [right; reflexivity|left].
  destruct xs as [|y xs]; [simpl; lia|].
  destruct IH as [IH|IH]; [|discriminate].
  change (Str.join nlStr (x :: y :: xs))
    with (x ++ nlStr ++ Str.join nlStr (y :: xs)).
  rewrite !countNl_app. simpl in *. lia.
Qed.

Lemma lastText_nl l : hasColumn l = false -> countNl (lastText l) = cellsNl l.
Proof.
  destruct l as [|c [|d l]]; intros H; try discriminate;
    unfold cellsNl; simpl; lia.
Qed.

Lemma zipPad_nl w : forall blk tails,
  List.length tails = List.length blk ->
  Forall (fun l => hasColumn l = true) blk ->
  sumNl (zipPad w blk tails) + linesNl (map (@tl cell) blk)
  = linesNl blk + sumNl tails.
Proof.
  induction blk as [|l blk IH]; intros [|t tails] H Hc; simpl in *; try lia.
  inversion Hc as [|? ? Hl Hb]; subst.
  specialize (IH tails ltac:(lia) Hb).
  destruct l as [|c l]; [discriminate|].
  simpl. rewrite !countNl_app, countNl_spaces.
  unfold cellsNl in *; simpl. lia.
Qed.

(** Formatting adds no newline and loses none. *)
Lemma format_nl ls : sumNl (format ls) = linesNl ls.
Proof.
  induction ls as [|l rest E IH|l rest blk after E Es IHt IHa] using format_ind.
  - reflexivity.
  - rewrite format_line by exact E. simpl. rewrite IH, lastText_nl; auto.
  - rewrite (format_block _ _ _ _ E Es).
    destruct (spanBlock_spec _ _ _ Es) as (Happ & Hblk & _).
    rewrite Happ, sumNl_app, linesNl_app, IHa.
    pose proof (zipPad_nl (blockWidth blk) blk (format (map (@tl cell) blk))) as Hz.
    rewrite format_length, length_map in Hz.
    specialize (Hz eq_refl Hblk). lia.
Qed.

Lemma render_nl ls :
  ls <> [] -> countNl (render ls) + 1 = List.length ls + linesNl ls.
Proof.
  intros Hne. unfold render.
  destruct (countNl_join (format ls)) as [H|H].
  - fold nlStr. rewrite format_length, format_nl in H. exact H.
  - apply (f_equal (@List.length _)) in H. rewrite format_length in H.
    destruct ls; [congruence|discriminate].
Qed.

Lemma endsWith_refl s : endsWith s s.
Proof. exists ""; reflexivity. Qed.

Lemma endsWith_app p suffix s : endsWith suffix s -> endsWith suffix (p ++ s).
Proof. intros [q ->]. exists (p ++ q). symmetry; apply append_assoc. Qed.

Lemma endsWith_trans a b c : endsWith a b -> endsWith b c -> endsWith a c.
Proof. intros [p ->] [q ->]. exists (q ++ p). symmetry; apply append_assoc. Qed.

Lemma last_app_ne {A} (a b : list A) d : b <> [] -> last (a ++ b) d = last b d.
Proof.
  intros Hb. induction a as [|x a IH]; [reflexivity|].
  simpl. destruct (a ++ b)%list eqn:E; [|exact IH].
  destruct a; simpl in E; [congruence|discriminate].
Qed.

Lemma last_cons_ne {A} (x : A) l d : l <> [] -> last (x :: l) d = last l d.
Proof. destruct l; [congruence|reflexivity]. Qed.

Lemma join_last sep xs : xs <> [] -> endsWith (last xs "") (Str.join sep xs).
Proof.
  induction xs as [|x xs IH]; [congruence|intros _].
  destruct xs as [|y xs]; [apply endsWith_refl|].
  change (Str.join sep (x :: y :: xs))
    with (x ++ sep ++ Str.join sep (y :: xs)).
  rewrite last_cons_ne by discriminate.
  do 2 apply endsWith_app. apply IH; discriminate.
Qed.

Lemma zipPad_last w : forall blk tails,
  List.length tails = List.length blk -> blk <> [] ->
  last (zipPad w blk tails) "" = padCell w (last blk []) (last tails "").
Proof.
  induction blk as [|l blk IH]; intros [|t tails] H Hne; simpl in H;
    try congruence; try lia.
  destruct blk as [|l' blk].
  - destruct tails; [reflexivity|discriminate].
  - destruct tails as [|t' tails]; [discriminate|].
    change (zipPad w (l :: l' :: blk) (t :: t' :: tails))
      with (padCell w l t :: zipPad w (l' :: blk) (t' :: tails)).
    rewrite (last_cons_ne (padCell w l t)), (last_cons_ne l), (last_cons_ne t);
      try discriminate.
    apply IH; [simpl in *; lia|discriminate].
Qed.

Lemma lastCellText_tl l : hasColumn l = true -> lastCellText (tl l) = lastCellText l.
Proof.
  destruct l as [|c [|d l]]; intros H; try discriminate.
  unfold lastCellText. simpl tl.
  change (map text (c :: d :: l)) with (text c :: map text (d :: l)).
  rewrite (last_cons_ne (text c)); [reflexivity|discriminate].
Qed.

Lemma lastText_last l : hasColumn l = false -> lastText l = lastCellText l.
Proof. destruct l as [|c [|d l]]; intros H; try discriminate; reflexivity. Qed.

Lemma last_map_tl (blk : list (list cell)) :
  last (map (@tl cell) blk) [] = tl (last blk []).
Proof.
  induction blk as [|l blk IH]; [reflexivity|].
  destruct blk as [|l' blk]; [reflexivity|].
  change (map (@tl cell) (l :: l' :: blk))
    with (tl l :: map (@tl cell) (l' :: blk)).
  rewrite (last_cons_ne (tl l)), (last_cons_ne l); try discriminate. exact IH.
Qed.

Lemma Forall_last {A} (P : A -> Prop) l d : Forall P l -> l <> [] -> P (last l d).
Proof.
  induction 1 as [|x l Hx Hl IH]; [congruence|intros _].
  destruct l; [exact Hx|]. apply IH; discriminate.
Qed.

(** The last formatted line ends with the text of the last cell. *)
Lemma format_last ls :
  ls <> [] -> endsWith (lastCellText (last ls [])) (last (format ls) "").
Proof.
  induction ls as [|l rest E IH|l rest blk after E Es IHt IHa] using format_ind.
  - congruence.
  - intros _. rewrite format_line by exact E.
    destruct rest as [|l' rest].
    + simpl. rewrite lastText_last by exact E. apply endsWith_refl.
    + rewrite (last_cons_ne (lastText l)), (last_cons_ne l); try discriminate;
        [apply IH; discriminate|].
      intros H. apply (f_equal (@List.length _)) in H.
      rewrite format_length in H. discriminate.
  - intros _. rewrite (format_block _ _ _ _ E Es).
    destruct (spanBlock_spec _ _ _ Es) as (Happ & Hblk & _).
    assert (Hne : blk <> []).
    { simpl in Es. rewrite E in Es. destruct (spanBlock rest).
      injection Es as <- _. discriminate. }
    rewrite Happ. destruct after as [|a after].
    + rewrite app_nil_r. change (format []) with (@nil string). rewrite app_nil_r.
      rewrite zipPad_last; [|rewrite format_length; apply length_map|exact Hne].
      pose proof (Forall_last _ blk [] Hblk Hne) as Hl.
      assert (Hm : map (@tl cell) blk <> []) by (destruct blk; [congruence|discriminate]).
      specialize (IHt Hm). rewrite last_map_tl, lastCellText_tl in IHt by exact Hl.
      destruct (last blk []) as [|c l0]; [discriminate|].
      simpl. do 2 apply endsWith_app. exact IHt.
    + rewrite !last_app_ne; try discriminate; [apply IHa; discriminate|].
      intros H. apply (f_equal (@List.length _)) in H.
      rewrite format_length in H. discriminate.
Qed.

Lemma render_last ls :
  ls <> [] -> endsWith (lastCellText (last ls [])) (render ls).
Proof.
  intros Hne. unfold render.
  apply (endsWith_trans _ (last (format ls) "")).
  - apply format_last; exact Hne.
  - apply join_last. intros H. apply (f_equal (@List.length _)) in H.
    rewrite format_length in H. destruct ls; [congruence|discriminate].
Qed.

(** *** Newlines through the writer *)

Lemma cellsNl_snoc l c : cellsNl (l ++ [c]) = cellsNl l + countNl (text c).
Proof. unfold cellsNl. rewrite map_app, sumNl_app. simpl. lia. Qed.

Lemma linesNl_snoc ls l : linesNl (ls ++ [l]) = linesNl ls + cellsNl l.
Proof. rewrite linesNl_app. simpl. lia. Qed.

Lemma countNl_snoc s c :
  countNl (snoc s c) = countNl s + (if Ascii.eqb c Str.nl then 1 else 0).
Proof. unfold snoc. rewrite countNl_app. simpl. lia. Qed.

Lemma Flush_nl b : countNl (Flush b) = pendingNl b.
Proof.
  unfold Flush, pendingNl. rewrite countNl_app.
  set (last := match ctext b with
               | EmptyString => line b
               | _ => (line b ++ [{| text := ctext b; width := cwidth b |}])%list
               end).
  assert (Hl : cellsNl last = cellsNl (line b) + countNl (ctext b)).
  { subst last. destruct (ctext b) eqn:E; [simpl; lia|].
    rewrite cellsNl_snoc. reflexivity. }
  pose proof (render_nl (lines b ++ [last])) as H.
  rewrite length_app, linesNl_snoc in H. simpl in H.
  specialize (H ltac:(intros E; destruct (lines b); discriminate)). lia.
Qed.

Lemma writeByte_nl b c :
  pendingNl b + (if Ascii.eqb c Str.nl then 1 else 0) <= pendingNl (writeByte b c).
Proof.
  unfold writeByte.
  destruct (esc b).
  { destruct (Ascii.eqb c Escape); unfold pendingNl; simpl;
      rewrite countNl_snoc; lia. }
  destruct (isCellEnd c || isLineEnd c) eqn:Eend.
  - destruct (isLineEnd c) eqn:El.
    + assert (Hc : (if Ascii.eqb c Str.nl then 1 else 0) <= 1)
        by (destruct (Ascii.eqb c Str.nl); lia).
      destruct (Ascii.eqb c Str.ff || (List.length (line b ++ [_]) =? 1));
        unfold pendingNl; simpl.
      * rewrite countNl_app.
        pose proof (render_nl ((lines b ++ [(line b ++
          [{| text := ctext b; width := cwidth b + Utf8.RuneCount (seg b) |}])%list])
          ++ [[]])) as H.
        rewrite !length_app, !linesNl_snoc, cellsNl_snoc in H. simpl in H.
        specialize (H ltac:(intros E; destruct (lines b); discriminate)).
        unfold cellsNl in H |- *; simpl in H |- *. lia.
      * rewrite length_app, linesNl_snoc, cellsNl_snoc. simpl.
        unfold cellsNl; simpl. lia.
    + assert (Hc : Ascii.eqb c Str.nl = false).
      { unfold isLineEnd in El. apply orb_false_iff in El. tauto. }
      rewrite Hc. unfold pendingNl; simpl. rewrite cellsNl_snoc. simpl. lia.
  - assert (Hc : Ascii.eqb c Str.nl = false).
    { apply orb_false_iff in Eend. destruct Eend as [_ El].
      unfold isLineEnd in El. apply orb_false_iff in El. tauto. }
    rewrite Hc.
    destruct (Ascii.eqb c Escape); unfold pendingNl; simpl;
      rewrite countNl_snoc, Hc; lia.
Qed.

Lemma Write_nl t : forall b, pendingNl b + countNl t <= pendingNl (Write b t).
Proof.
  induction t as [|c t IH]; intros b; simpl; [lia|].
  pose proof (writeByte_nl b c). pose proof (IH (writeByte b c)). lia.
Qed.

(** *** What the output ends with *)

Lemma endsWith_append x a y : endsWith x a -> endsWith (x ++ y) (a ++ y).
Proof. intros [p ->]. exists p. apply append_assoc. Qed.

Lemma join_snoc sep xs x :
  xs <> [] -> Str.join sep (xs ++ [x]) = Str.join sep xs ++ sep ++ x.
Proof.
  induction xs as [|y xs IH]; [congruence|intros _].
  destruct xs as [|z xs]; [reflexivity|].
  change (Str.join sep ((y :: z :: xs) ++ [x]))
    with (y ++ sep ++ Str.join sep ((z :: xs) ++ [x])).
  rewrite IH by discriminate.
  change (Str.join sep (y :: z :: xs)) with (y ++ sep ++ Str.join sep (z :: xs)).
  rewrite !append_assoc. reflexivity.
Qed.

Lemma render_snoc ls l :
  hasColumn l = false -> ls <> [] ->
  render (ls ++ [l]) = render ls ++ nlStr ++ lastText l.
Proof.
  intros El Hne. unfold render. rewrite (format_snoc l El).
  apply join_snoc. intros H. apply (f_equal (@List.length _)) in H.
  rewrite format_length in H. destruct ls; [congruence|discriminate].
Qed.

Lemma writeByte_newline b :
  esc b = false ->
  let ls' := (lines b ++ [(line b ++ [doneCell b])%list])%list in
  writeByte b Str.nl
  = {| output := output b ++ render (ls' ++ [[]]); lines := []; line := [];
       ctext := ""; seg := ""; cwidth := 0; esc := false |}
  \/ writeByte b Str.nl
  = {| output := output b; lines := ls'; line := [];
       ctext := ""; seg := ""; cwidth := 0; esc := false |}.
Proof.
  intros He ls'. unfold writeByte. rewrite He.
  change (isCellEnd Str.nl || isLineEnd Str.nl) with true.
  change (isLineEnd Str.nl) with true.
  change (Ascii.eqb Str.nl Str.ff) with false.
  cbv iota. simpl orb. fold (doneCell b).
  destruct (List.length (line b ++ [doneCell b]) =? 1); [left|right]; reflexivity.
Qed.

Lemma writeByte_newline_esc b :
  esc b = true ->
  esc (writeByte b Str.nl) = true /\
  ctext (writeByte b Str.nl) = snoc (ctext b) Str.nl.
Proof.
  intros He. unfold writeByte. rewrite He.
  change (Ascii.eqb Str.nl Escape) with false. split; reflexivity.
Qed.

Lemma snoc_not_empty s c : snoc s c <> "".
Proof. destruct s; discriminate. Qed.

Lemma Flush_ctext b : ctext b <> "" -> endsWith (ctext b) (Flush b).
Proof.
  intros Hne. unfold Flush. destruct (ctext b) as [|c s] eqn:E; [congruence|].
  apply endsWith_app.
  set (l := (line b ++ [{| text := String c s; width := cwidth b |}])%list).
  pose proof (render_last (lines b ++ [l])) as H.
  rewrite last_last in H.
  assert (Hl : lastCellText l = String c s).
  { unfold lastCellText, l. rewrite map_app. apply last_last. }
  rewrite Hl in H. apply H. destruct (lines b); discriminate.
Qed.

Lemma Flush_after_newline b :
  esc b = false ->
  Flush (writeByte b Str.nl)
  = output b
    ++ render ((lines b ++ [(line b ++ [doneCell b])%list]) ++ [[]]).
Proof.
  intros He. destruct (writeByte_newline b He) as [-> | ->]; unfold Flush; simpl.
  - change (render [[]]) with "". rewrite append_nil_r. reflexivity.
  - reflexivity.
Qed.

Lemma Flush_one_newline b : endsWith nlStr (Flush (writeByte b Str.nl)).
Proof.
  destruct (esc b) eqn:He.
  - destruct (writeByte_newline_esc b He) as [_ Hc].
    apply (endsWith_trans _ (ctext (writeByte b Str.nl))).
    + rewrite Hc. exists (ctext b). reflexivity.
    + apply Flush_ctext. rewrite Hc. apply snoc_not_empty.
  - rewrite (Flush_after_newline b He), render_snoc;
      [|reflexivity|destruct (lines b); discriminate].
    apply endsWith_app, endsWith_app. simpl. apply endsWith_refl.
Qed.

Lemma Flush_two_newlines b :
  endsWith (nlStr ++ nlStr) (Flush (writeByte (writeByte b Str.nl) Str.nl)).
Proof.
  destruct (esc b) eqn:He.
  - destruct (writeByte_newline_esc b He) as [He1 Hc1].
    destruct (writeByte_newline_esc _ He1) as [_ Hc2].
    apply (endsWith_trans _ (ctext (writeByte (writeByte b Str.nl) Str.nl))).
    + rewrite Hc2, Hc1. exists (ctext b). unfold snoc.
      rewrite append_assoc. reflexivity.
    + apply Flush_ctext. rewrite Hc2. apply snoc_not_empty.
  - set (ls' := (lines b ++ [(line b ++ [doneCell b])%list])%list).
    assert (Hne : ls' <> []) by (subst ls'; destruct (lines b); discriminate).
    destruct (writeByte_newline b He) as [E | E]; rewrite E;
      rewrite Flush_after_newline by reflexivity; simpl output; simpl lines;
      simpl line; fold ls'.
    + change (render (([] ++ [([] ++ [doneCell _])%list]) ++ [[]])) with nlStr.
      rewrite render_snoc by (auto; reflexivity).
      exists (output b ++ render ls'). simpl. rewrite !append_assoc. reflexivity.
    + rewrite render_snoc; [|reflexivity|destruct ls'; discriminate].
      rewrite render_snoc by (auto; reflexivity).
      exists (output b ++ render ls'). simpl. rewrite !append_assoc. reflexivity.
Qed.

(** *** The aligner on whole lines *)

Lemma alignStep_one w l : pendingNl w + 1 <= pendingNl (alignStep w l).
Proof.
  unfold alignStep.
  pose proof (Write_nl l w) as H1.
  pose proof (Write_nl (String Str.nl "") (Write w l)) as H2.
  change (countNl (String Str.nl "")) with 1 in H2. lia.
Qed.

Lemma alignStep_nl ls : forall w,
  pendingNl w + List.length ls <= pendingNl (fold_left alignStep ls w).
Proof.
  induction ls as [|l ls IH]; intros w; cbn [fold_left List.length]; [lia|].
  pose proof (IH (alignStep w l)). pose proof (alignStep_one w l). lia.
Qed.

Lemma valign_nl strs : List.length strs <= countNl (valign strs).
Proof.
  unfold valign. rewrite Flush_nl.
  pose proof (alignStep_nl strs NewWriter) as H. unfold alignStep in H.
  change (pendingNl NewWriter) with 0 in H. exact H.
Qed.

Lemma valign_snoc X x :
  valign (X ++ [x])
  = Flush (writeByte (Write (fold_left alignStep X NewWriter) x) Str.nl).
Proof. unfold valign. rewrite fold_left_app. reflexivity. Qed.

Lemma valign_ends_nl strs : strs <> [] -> endsWith nlStr (valign strs).
Proof.
  intros Hne. rewrite (app_removelast_last "" Hne), valign_snoc.
  apply Flush_one_newline.
Qed.

Lemma valign_ends_blank X :
  X <> [] -> endsWith (nlStr ++ nlStr) (valign (X ++ [""])).
Proof.
  intros Hne. rewrite valign_snoc, (app_removelast_last "" Hne), fold_left_app.
  simpl. apply Flush_two_newlines.
Qed.

Lemma splitAux_length s : forall cur,
  List.length (Str.splitAux Str.nl s cur) = S (countNl s).
Proof.
  induction s as [|c s IH]; intros cur; simpl; [reflexivity|].
  destruct (Ascii.eqb c Str.nl); simpl; rewrite IH; reflexivity.
Qed.

Lemma split_length s : List.length (Str.split Str.nl s) = S (countNl s).
Proof. apply splitAux_length. Qed.

Lemma split_last s : endsWith nlStr s -> last (Str.split Str.nl s) "" = "".
Proof.
  intros [p ->]. unfold nlStr. rewrite split_app.
  change (Str.split Str.nl "") with [""]. apply last_last.
Qed.

Lemma last_nth {A} (l : list A) d : last l d = nth (List.length l - 1) l d.
Proof.
  induction l as [|x l IH]; [reflexivity|].
  destruct l as [|y l]; [reflexivity|].
  change (last (x :: y :: l) d) with (last (y :: l) d). rewrite IH.
  simpl. rewrite Nat.sub_0_r. reflexivity.
Qed.

Lemma overlayFrom_above cfg block todo : forall i lines j,
  List.length block <= j ->
  nth j (overlayFrom cfg block todo i lines) "" = nth j lines "".
Proof.
  induction todo as [|todo IH]; intros i lines j Hj; simpl; [reflexivity|].
  destruct (Nat.leb_spec (List.length block) i); [reflexivity|].
  destruct (overlayAt cfg block lines i).
  - rewrite IH by exact Hj. apply nth_setNth_neq. lia.
  - apply IH; exact Hj.
Qed.

Lemma writeLinesNoComment_length cfg : forall block strs,
  writeLinesNoComment block cfg = Some strs ->
  List.length strs = List.length block.
Proof.
  induction block as [|l block IH]; intros strs H; simpl in H.
  - injection H as <-. reflexivity.
  - destruct (lineNoComment cfg l); [|discriminate].
    destruct (writeLinesNoComment block cfg); [|discriminate].
    injection H as <-. simpl. f_equal. apply IH. reflexivity.
Qed.

(** Every block that is not [nil] is written with a blank line at its end. *)
Lemma writeBlock_ends_blank cfg block out :
  block <> [] -> writeBlock block cfg = Some out ->
  endsWith (nlStr ++ nlStr) out.
Proof.
  intros Hne H. unfold writeBlock in H.
  destruct (writeLinesNoComment block cfg) as [strs|] eqn:Es; [|discriminate].
  injection H as <-.
  pose proof (writeLinesNoComment_length cfg block strs Es) as Hlen.
  set (L := Str.split Str.nl (valign strs)).
  assert (Hb : 0 < List.length block) by (destruct block; [congruence|simpl; lia]).
  assert (HL : S (List.length block) <= List.length L).
  { unfold L. rewrite split_length. pose proof (valign_nl strs). lia. }
  assert (Hlast : last L "" = "").
  { apply split_last, valign_ends_nl. destruct strs; [simpl in Hlen; lia|discriminate]. }
  set (L' := overlay cfg block L).
  assert (HL' : List.length L' = List.length L) by apply overlayFrom_length.
  assert (Hlast' : last L' "" = "").
  { rewrite last_nth, HL'. unfold L', overlay.
    rewrite overlayFrom_above by lia. rewrite <- last_nth. exact Hlast. }
  assert (Hne' : L' <> []) by (destruct L'; [simpl in HL'; lia|discriminate]).
  rewrite (app_removelast_last "" Hne'), Hlast'.
  apply valign_ends_blank.
  intros E. apply (f_equal (@List.length _)) in E.
  destruct L' as [|a [|b0 L'']]; simpl in *; try lia; discriminate.
Qed.

(** *** The block segmenter *)

Lemma noSection_alone blk :
  Forall (fun l => isSection l = false) blk -> sectionAlone blk.
Proof.
  intros H l Hin Hs. rewrite Forall_forall in H. rewrite (H l Hin) in Hs.
  discriminate.
Qed.

Lemma addBlock_inv b : segmentInv b -> segmentInv (addBlock b).
Proof.
  intros [Hc Hcur]. unfold addBlock. destruct (cur b) as [|l c] eqn:E.
  - split; [exact Hc|rewrite E; constructor].
  - split; simpl; [|constructor].
    apply Forall_app; split; [exact Hc|].
    constructor; [|constructor]. split; [discriminate|].
    apply noSection_alone. exact Hcur.
Qed.

Lemma addBlock_cur b : cur (addBlock b) = [].
Proof. unfold addBlock. destruct (cur b) eqn:E; [exact E|reflexivity]. Qed.

Lemma segmentStep_inv b line : segmentInv b -> segmentInv (segmentStep b line).
Proof.
  intros H. unfold segmentStep.
  destruct (IsEmpty line); [apply addBlock_inv; exact H|].
  destruct (isSection line) eqn:Es.
  - pose proof (addBlock_inv b H) as [Hc _].
    pose proof (addBlock_cur b) as Hcur.
    unfold addBlock at 1, addToBlock. simpl. rewrite Hcur. simpl.
    split; simpl; [|constructor].
    apply Forall_app; split; [exact Hc|].
    constructor; [|constructor]. split; [discriminate|].
    intros l [<-|[]] _. reflexivity.
  - destruct H as [Hc Hcur]. split; simpl; [exact Hc|].
    apply Forall_app; split; [exact Hcur|]. constructor; [exact Es|constructor].
Qed.

Lemma segment_inv lines : forall b,
  segmentInv b -> segmentInv (fold_left segmentStep lines b).
Proof.
  induction lines as [|l lines IH]; intros b H; simpl; [exact H|].
  apply IH, segmentStep_inv, H.
Qed.

Lemma segment_section lines pre block post l :
  segment lines = (pre ++ block :: post)%list ->
  In l block -> isSection l = true ->
  block = [l] /\ Forall (fun blk => blk <> []) pre.
Proof.
  intros Hseg Hin Hs. unfold segment, blocksOf in Hseg.
  destruct (segment_inv lines initBlocks) as [Hc Hcur];
    [split; constructor|].
  set (b := fold_left segmentStep lines initBlocks) in *.
  destruct (exists_last (l := block :: post) ltac:(discriminate))
    as (front & z & Hz).
  rewrite Hz, app_assoc in Hseg. apply app_inj_tail in Hseg.
  destruct Hseg as [Hclosed Hlast].
  destruct front as [|f front]; simpl in Hz.
  - injection Hz as Hb Hp. rewrite Forall_forall in Hcur.
    assert (Hn : isSection l = false)
      by (apply Hcur; rewrite Hlast, <- Hb; exact Hin).
    congruence.
  - injection Hz as Hb Hp. subst f. rewrite Hclosed in Hc.
    apply Forall_app in Hc. destruct Hc as [Hpre Hrest].
    inversion Hrest as [|? ? [_ Halone] _]; subst. split.
    + apply Halone; assumption.
    + revert Hpre. apply Forall_impl. tauto.
Qed.

(** *** Writing the blocks *)

Lemma writeBlocks_app cfg a : forall b out,
  writeBlocks (a ++ b) cfg = Some out ->
  exists oa ob,
    writeBlocks a cfg = Some oa /\ writeBlocks b cfg = Some ob /\
    out = oa ++ ob.
Proof.
  induction a as [|x a IH]; intros b out H; simpl in *.
  - exists "", out. repeat split. exact H.
  - destruct (writeBlock x cfg) as [ox|]; [|discriminate].
    destruct (writeBlocks (a ++ b) cfg) as [o|] eqn:E; [|discriminate].
    injection H as <-. destruct (IH b o E) as (oa & ob & -> & -> & ->).
    exists (ox ++ oa), ob. repeat split. symmetry; apply append_assoc.
Qed.

Lemma writeBlocks_ends_blank cfg : forall pre out,
  pre <> [] -> Forall (fun blk => blk <> []) pre ->
  writeBlocks pre cfg = Some out -> endsWith (nlStr ++ nlStr) out.
Proof.
  induction pre as [|x pre IH]; intros out Hne Hall H; [congruence|].
  simpl in H. inversion Hall as [|? ? Hx Hpre]; subst.
  destruct (writeBlock x cfg) as [ox|] eqn:Ex; [|discriminate].
  destruct (writeBlocks pre cfg) as [o|] eqn:E; [|discriminate].
  injection H as <-. destruct pre as [|y pre].
  - simpl in E. injection E as <-. rewrite append_nil_r.
    apply (writeBlock_ends_blank cfg x); assumption.
  - apply endsWith_app. apply IH; [discriminate|exact Hpre|reflexivity].
Qed.

(** C4: a line with a Section token is alone in its block, whatever blank
    lines surround it in the source; in the output, the bytes written for
    its block end with a blank line, and so do the bytes written for the
    blocks before it, if there are any. *)
Theorem section_isolation :
  forall src cfg lines out pre block post l,
    Parse src = inl lines ->
    Format src cfg = Written out ->
    segment lines = (pre ++ block :: post)%list ->
    In l block -> isSection l = true ->
    block = [l] /\
    exists before this after,
      writeBlocks pre cfg = Some before /\
      writeBlock [l] cfg = Some this /\
      writeBlocks post cfg = Some after /\
      out = before ++ this ++ after /\
      endsWith (nlStr ++ nlStr) this /\
      (pre <> [] -> endsWith (nlStr ++ nlStr) before).
Proof.
  intros src cfg lines out pre block post l Hparse Hfmt Hseg Hin Hs.
  destruct (segment_section lines pre block post l Hseg Hin Hs) as [-> Hpre].
  split; [reflexivity|].
  unfold Format in Hfmt. rewrite Hparse in Hfmt. unfold formatLines in Hfmt.
  rewrite Hseg in Hfmt.
  match type of Hfmt with
  | context [writeBlocks ?bs cfg] =>
      destruct (writeBlocks bs cfg) as [o|] eqn:E; [|discriminate]
  end.
  injection Hfmt as ->.
  destruct (writeBlocks_app cfg pre _ _ E) as (before & rest & Hb & Hr & ->).
  cbn [writeBlocks] in Hr. revert Hr.
  destruct (writeBlock [l] cfg) as [this|] eqn:Et; [|discriminate].
  destruct (writeBlocks post cfg) as [after|] eqn:Ea; [|discriminate].
  intros Hr. injection Hr as <-.
  exists before, this, after.
  do 4 (split; [first [assumption | reflexivity]|]). split.
  - apply (writeBlock_ends_blank cfg [l]); [discriminate|exact Et].
  - intros Hne. apply (writeBlocks_ends_blank cfg pre); assumption.
Qed.

Lemma section_isolation_witness :
  [sectionLine] = [sectionLine] /\
  exists before this after,
    writeBlocks [[labelLine "a"]] defaultConfig = Some before /\
    writeBlock [sectionLine] defaultConfig = Some this /\
    writeBlocks [[labelLine "b"]] defaultConfig = Some after /\
    unlines ["a:"; ""; "section .text"; ""; "b:"; ""; ""]
    = before ++ this ++ after /\
    endsWith (nlStr ++ nlStr) this /\
    ([[labelLine "a"]] <> [] -> endsWith (nlStr ++ nlStr) before).
Proof.
  apply (section_isolation (unlines ["a:"; "section .text"; "b:"])
           defaultConfig [labelLine "a"; sectionLine; labelLine "b"]
           (unlines ["a:"; ""; "section .text"; ""; "b:"; ""; ""])
           [[labelLine "a"]] [sectionLine] [[labelLine "b"]] sectionLine).
  - vm_compute; reflexivity.
  - vm_compute; reflexivity.
  - vm_compute; reflexivity.
  - left; reflexivity.
  - reflexivity.
Defined.

(** *** Plain lines through the aligner *)

Lemma snoc_append x c t : snoc x c ++ t = x ++ String c t.
Proof. unfold snoc. rewrite append_assoc. reflexivity. Qed.

Lemma Write_plain t : plain t = true ->
  forall o x w, Write (idle o x w) t = idle o (x ++ t) w.
Proof.
  induction t as [|c t IH]; intros Hp o x w; simpl.
  - rewrite append_nil_r. reflexivity.
  - simpl in Hp. apply andb_true_iff in Hp. destruct Hp as [Hc Ht].
    unfold plainByte in Hc. apply negb_true_iff in Hc.
    apply orb_false_iff in Hc. destruct Hc as [Hend Hesc].
    assert (Hw : writeByte (idle o x w) c = idle o (snoc x c) w).
    { unfold writeByte. simpl esc. cbv iota. rewrite Hend, Hesc. reflexivity. }
    rewrite Hw, (IH Ht), snoc_append. reflexivity.
Qed.

Lemma alignStep_plain o l :
  plain l = true ->
  alignStep (idle o "" 0) l = idle (o ++ l ++ nlStr) "" 0.
Proof.
  intros Hp. unfold alignStep. rewrite (Write_plain l Hp). simpl.
  destruct (writeByte_newline (idle o l 0) eq_refl) as [H | H].
  - rewrite H. simpl. unfold idle. f_equal.
  - exfalso. unfold writeByte in H. simpl in H. discriminate.
Qed.


Lemma fold_alignStep_plain ls : Forall (fun l => plain l = true) ls ->
  forall o, fold_left alignStep ls (idle o "" 0) = idle (o ++ terminated ls) "" 0.
Proof.
  induction 1 as [|l ls Hl _ IH]; intros o; simpl.
  - rewrite append_nil_r. reflexivity.
  - rewrite (alignStep_plain o l Hl), IH, !append_assoc. reflexivity.
Qed.

(** Lines without cell or line terminators and without escape bytes are
    written as they are, each with its newline. *)
Lemma valign_plain ls :
  Forall (fun l => plain l = true) ls -> valign ls = terminated ls.
Proof.
  intros H. unfold valign.
  change (fold_left _ ls NewWriter) with (fold_left alignStep ls (idle "" "" 0)).
  rewrite (fold_alignStep_plain ls H). unfold Flush. simpl.
  change (render [[]]) with "". apply append_nil_r.
Qed.




(** ** Further properties of the code *)

Lemma blocksOf_addBlock b : concat (blocksOf (addBlock b)) = concat (blocksOf b).
Proof.
  unfold addBlock, blocksOf. destruct (cur b) eqn:E; [rewrite E; reflexivity|].
  simpl. rewrite !concat_app. simpl. rewrite !app_nil_r. reflexivity.
Qed.

Lemma blocksOf_addToBlock l b :
  concat (blocksOf (addToBlock l b)) = (concat (blocksOf b) ++ [l])%list.
Proof.
  unfold addToBlock, blocksOf. simpl. rewrite !concat_app. simpl.
  rewrite !app_nil_r, app_assoc. reflexivity.
Qed.

Lemma segmentStep_concat b l :
  concat (blocksOf (segmentStep b l))
  = (concat (blocksOf b) ++ filter nonEmpty [l])%list.
Proof.
  unfold segmentStep, nonEmpty. simpl. destruct (IsEmpty l); simpl.
  - rewrite blocksOf_addBlock, app_nil_r. reflexivity.
  - destruct (isSection l).
    + rewrite blocksOf_addBlock, blocksOf_addToBlock, blocksOf_addBlock. reflexivity.
    + apply blocksOf_addToBlock.
Qed.

Lemma fold_segment_concat lines : forall b,
  concat (blocksOf (fold_left segmentStep lines b))
  = (concat (blocksOf b) ++ filter nonEmpty lines)%list.
Proof.
  induction lines as [|l lines IH]; intros b; simpl fold_left.
  - simpl. rewrite app_nil_r. reflexivity.
  - rewrite IH, segmentStep_concat. simpl filter.
    destruct (nonEmpty l); simpl; rewrite <- ?app_assoc; reflexivity.
Qed.

Lemma segment_concat lines : concat (segment lines) = filter nonEmpty lines.
Proof. unfold segment. apply fold_segment_concat. Qed.

(** X1: The blocks built by the loop of Format, put end to end, are exactly
    the non-empty lines of the input in their order: the segmenter drops the
    empty lines and nothing else, and reorders nothing. *)
Theorem segment_keeps_lines_in_order :
  forall lines, concat (segment lines) = filter nonEmpty lines.
Proof. exact segment_concat. Qed.

Lemma addBlock_idem b : addBlock (addBlock b) = addBlock b.
Proof.
  unfold addBlock at 1. rewrite addBlock_cur. reflexivity.
Qed.

Lemma segmentStep_empty b e : IsEmpty e = true -> segmentStep b e = addBlock b.
Proof. intros H. unfold segmentStep. rewrite H. reflexivity. Qed.

(** X3: Two consecutive empty lines give the same blocks as one: a run of
    blank lines is a single block boundary. *)
Theorem blank_runs_collapse :
  forall pre e1 e2 post,
    IsEmpty e1 = true -> IsEmpty e2 = true ->
    segment (pre ++ e1 :: e2 :: post)%list = segment (pre ++ e1 :: post)%list.
Proof.
  intros pre e1 e2 post H1 H2. unfold segment.
  rewrite !fold_left_app. cbn [fold_left].
  rewrite !(segmentStep_empty _ e1 H1), (segmentStep_empty _ e2 H2), addBlock_idem.
  reflexivity.
Qed.

Theorem leading_blank_line_vanishes :
  forall e rest, IsEmpty e = true -> segment (e :: rest) = segment rest.
Proof.
  intros e rest H. unfold segment. cbn [fold_left].
  rewrite (segmentStep_empty _ e H). reflexivity.
Qed.

Section ByTypeFacts.
Context {T : Type} (cast : Token -> option T) (zero : T).


End ByTypeFacts.

Lemma PopComment_is_PopToken tokens :
  PopComment tokens = PopToken asComment noComment tokens.
Proof.
  induction tokens as [|x tokens IH]; [reflexivity|].
  simpl. destruct x; simpl; try (rewrite IH; reflexivity). reflexivity.
Qed.

Lemma comment_shape line :
  ParseCommentToken line = (None, line) \/
  exists c r, ParseCommentToken line = (Some (TComment c), r).
Proof.
  unfold ParseCommentToken.
  destruct (Str.indexByte ";"%char (NoQuotes line "x")); [right|left; reflexivity].
  eexists _, _; reflexivity.
Qed.

Lemma section_shape line :
  ParseSectionToken line = (None, line) \/
  exists t, ParseSectionToken line = (Some (TSection t), "").
Proof.
  unfold ParseSectionToken.
  destruct (keywordLineRe sectionKeywords (NoQuotes line "x")) as [[[[? ?] ?] ?]|];
    [right; eexists; reflexivity|left; reflexivity].
Qed.

Lemma directive_shape line :
  ParseDirectiveToken line = (None, line) \/
  exists t, ParseDirectiveToken line = (Some (TDirective t), "").
Proof.
  unfold ParseDirectiveToken.
  destruct (keywordLineRe directiveKeywords (NoQuotes line "x")) as [[[[? ?] ?] ?]|];
    [right; eexists; reflexivity|left; reflexivity].
Qed.

Lemma pseudo_shape line :
  ParsePseudoToken line = (None, line) \/
  exists t, ParsePseudoToken line = (Some (TPseudo t), "").
Proof.
  unfold ParsePseudoToken.
  destruct (pseudoSearch 0 (NoQuotes line "x")) as [[[? ?] ?]|];
    [right; eexists; reflexivity|left; reflexivity].
Qed.

Lemma label_shape line :
  ParseLabelToken line = (None, line) \/
  exists t r, ParseLabelToken line = (Some (TLabel t), r).
Proof.
  unfold ParseLabelToken.
  destruct (Str.indexByte ":"%char (NoQuotes line "x")); [|left; reflexivity].
  destruct (Str.containsByte "["%char _ && Str.containsByte "]"%char _);
    [left; reflexivity|right; eexists _, _; reflexivity].
Qed.

Lemma instruction_shape line :
  (ParseInstructionToken line = (None, Str.trimLeftSpace line) /\
   instrSearch 0 (NoQuotes (Str.trimLeftSpace line) "x") = None) \/
  exists t, ParseInstructionToken line = (Some (TInstruction t), "").
Proof.
  unfold ParseInstructionToken.
  destruct (instrSearch 0 (NoQuotes (Str.trimLeftSpace line) "x")) as [[? ?]|];
    [right; eexists; reflexivity|left; split; reflexivity].
Qed.

Lemma structural_shape line :
  forall ts rest, runParsers structuralParsers line = (ts, rest) ->
    goodShape ts /\
    (rest = "" \/
     exists l5, rest = Str.trimLeftSpace l5 /\
                instrSearch 0 (NoQuotes rest "x") = None).
Proof.
  intros ts rest. unfold structuralParsers.
  cbn [runParsers].
  destruct (section_shape line) as [E|[t E]]; rewrite E; clear E.
  2:{ simpl. intros H; injection H as <- <-. simpl; auto. }
  destruct (String.eqb line "") eqn:El.
  { simpl. intros H; injection H as <- <-. apply String.eqb_eq in El. simpl; auto. }
  destruct (directive_shape line) as [E|[t E]]; rewrite E; clear E.
  2:{ simpl. intros H; injection H as <- <-. simpl; auto. }
  rewrite El.
  destruct (pseudo_shape line) as [E|[t E]]; rewrite E; clear E.
  2:{ simpl. intros H; injection H as <- <-. simpl; auto. }
  rewrite El.
  destruct (label_shape line) as [E|(t & r & E)]; rewrite E; clear E.
  - rewrite El.
    destruct (instruction_shape line) as [[E Hs]|[t E]]; rewrite E; clear E.
    + destruct (String.eqb (Str.trimLeftSpace line) "") eqn:Et;
        simpl; intros H; injection H as <- <-; simpl; split; auto;
        right; exists line; auto.
    + simpl. intros H; injection H as <- <-. simpl; auto.
  - destruct (String.eqb r "") eqn:Er.
    { simpl. intros H; injection H as <- <-. apply String.eqb_eq in Er. simpl; auto. }
    destruct (instruction_shape r) as [[E Hs]|[t' E]]; rewrite E; clear E.
    + destruct (String.eqb (Str.trimLeftSpace r) "") eqn:Et;
        simpl; intros H; injection H as <- <-; simpl; split; auto;
        right; exists r; auto.
    + simpl. intros H; injection H as <- <-. simpl; auto.
Qed.

Lemma word_not_space c : Re.isWord c = true -> Re.isSpace c = false.
Proof.
  destruct c as [[] [] [] [] [] [] [] []]; vm_compute; congruence.
Qed.

Lemma instrSearch_none s : forall p, instrSearch p s = None -> hasWord s = false.
Proof.
  induction s as [|c s IH]; intros p H; [reflexivity|].
  simpl. destruct (Re.isWord c) eqn:Ew.
  - exfalso. simpl in H. rewrite (word_not_space c Ew) in H.
    simpl in H. rewrite Ew in H. simpl in H. discriminate.
  - simpl. cbn [instrSearch] in H.
    destruct (0 <? _); [discriminate|]. apply (IH _ H).
Qed.

Lemma length_drop k : forall s, String.length (Str.drop k s) = String.length s - k.
Proof.
  induction k as [|k IH]; intros [|c s]; simpl; auto.
Qed.

Lemma leadingSpace_pos s k : Str.leadingSpace s = Some k -> 1 <= k.
Proof.
  unfold Str.leadingSpace.
  destruct (filter _ Str.unicodeSpaces) as [|p l] eqn:E; [discriminate|].
  intros H; injection H as <-.
  assert (Hin : In p Str.unicodeSpaces).
  { apply (proj1 (filter_In (fun p => String.prefix p s) p Str.unicodeSpaces)).
    rewrite E. left; reflexivity. }
  assert (Hall : forallb (fun p => 1 <=? String.length p) Str.unicodeSpaces = true)
    by (vm_compute; reflexivity).
  rewrite forallb_forall in Hall. apply Nat.leb_le, Hall, Hin.
Qed.

Lemma trimLeftFuel_done f : forall s,
  String.length s <= f -> Str.leadingSpace (Str.trimLeftFuel f s) = None.
Proof.
  induction f as [|f IH]; intros s H; simpl.
  - destruct s; [reflexivity|simpl in H; lia].
  - destruct (Str.leadingSpace s) as [k|] eqn:E; [|exact E].
    apply IH. rewrite length_drop. pose proof (leadingSpace_pos s k E). lia.
Qed.

Lemma trimLeftSpace_done s : Str.leadingSpace (Str.trimLeftSpace s) = None.
Proof. apply trimLeftFuel_done. lia. Qed.

Lemma ParseLine_unfold line :
  ParseLine line =
  let (token, line') := ParseCommentToken line in
  let here := match token with Some t => [t] | None => [] end in
  let (tokens, rest) :=
    if String.eqb line' "" then (here, line')
    else let (more, final) := runParsers structuralParsers line' in
         ((here ++ more)%list, final) in
  if String.eqb rest "" then
    let (comment, tokens') := PopComment tokens in
    inl {| Tokens := tokens'; TLComment := comment |}
  else inr rest.
Proof.
  unfold ParseLine, TokenParsers, structuralParsers.
  destruct (ParseCommentToken line) as [token line'] eqn:E.
  change (runParsers (ParseCommentToken :: ?ps) line)
    with (let (token, line') := ParseCommentToken line in
          let here := match token with Some t => [t] | None => [] end in
          if String.eqb line' "" then (here, line')
          else let (more, final) := runParsers ps line' in
               ((here ++ more)%list, final)).
  rewrite E. reflexivity.
Qed.

Lemma goodShape_no_comment ts :
  goodShape ts -> PopComment ts = (noComment, ts).
Proof.
  destruct ts as [|[] [|[] [|? ?]]]; simpl; try tauto; reflexivity.
Qed.

(** X5: A line that ParseLine accepts holds, beside its comment, no token,
    or one Section, Directive, Pseudo, Label or Instruction token, or a
    Label followed by an Instruction; never anything else. *)
Theorem parsed_line_shape :
  forall line l, ParseLine line = inl l -> goodShape (Tokens l).
Proof.
  intros line l. rewrite ParseLine_unfold.
  destruct (comment_shape line) as [E|(c & r & E)]; rewrite E; clear E;
    cbv zeta.
  - destruct (String.eqb line "") eqn:El.
    + rewrite El. simpl. intros H; injection H as <-. exact I.
    + destruct (runParsers structuralParsers line) as [more final] eqn:Er.
      destruct (structural_shape line _ _ Er) as [Hs _].
      destruct (String.eqb final ""); [|discriminate].
      simpl app. rewrite (goodShape_no_comment more Hs).
      intros H; injection H as <-. exact Hs.
  - destruct (String.eqb r "") eqn:El.
    + rewrite El. simpl. intros H; injection H as <-. exact I.
    + destruct (runParsers structuralParsers r) as [more final] eqn:Er.
      destruct (structural_shape r _ _ Er) as [Hs _].
      destruct (String.eqb final ""); [|discriminate].
      simpl. intros H; injection H as <-. exact Hs.
Qed.

(** X6: When ParseLine fails, the excess text it reports is not empty,
    starts with no white space, and holds no word character outside quoted
    text: it is what the instruction recognizer declined. *)
Theorem fault_excess_has_no_word :
  forall line excess, ParseLine line = inr excess ->
    excess <> "" /\
    Str.leadingSpace excess = None /\
    hasWord (NoQuotes excess "x") = false.
Proof.
  intros line excess. rewrite ParseLine_unfold.
  assert (Hgen : forall l0 here,
    (let (tokens, rest) :=
       if String.eqb l0 "" then (here, l0)
       else let (more, final) := runParsers structuralParsers l0 in
            ((here ++ more)%list, final) in
     if String.eqb rest "" then
       let (comment, tokens') := PopComment tokens in
       inl {| Tokens := tokens'; TLComment := comment |}
     else inr rest) = inr excess ->
    excess <> "" /\ Str.leadingSpace excess = None /\
    hasWord (NoQuotes excess "x") = false).
  { intros l0 here. destruct (String.eqb l0 "") eqn:El.
    - rewrite El. destruct (PopComment here). discriminate.
    - destruct (runParsers structuralParsers l0) as [more final] eqn:Er.
      destruct (structural_shape l0 _ _ Er) as [_ Hr].
      destruct (String.eqb final "") eqn:Ef.
      + destruct (PopComment _). discriminate.
      + intros H; injection H as <-.
        destruct Hr as [->|(l5 & Hl & Hs)]; [discriminate|].
        split; [intros ->; discriminate|].
        split; [rewrite Hl; apply trimLeftSpace_done|].
        apply (instrSearch_none _ 0 Hs). }
  destruct (ParseCommentToken line) as [token line']. apply Hgen.
Qed.

Lemma parseFrom_success : forall texts n scanErr acc ls,
  parseFrom n texts scanErr acc = (ls, None) ->
  scanErr = false /\
  exists parsed,
    ls = (acc ++ parsed)%list /\
    Forall2 (fun text l => ParseLine text = inl l) texts parsed.
Proof.
  induction texts as [|text texts IH]; intros n scanErr acc ls H; simpl in H.
  - destruct scanErr; [discriminate|]. injection H as <-.
    split; [reflexivity|]. exists []. rewrite app_nil_r. split; constructor.
  - destruct (ParseLine text) as [l|excess] eqn:E; [|discriminate].
    destruct (IH _ _ _ _ H) as (He & parsed & -> & Hall).
    split; [exact He|]. exists (l :: parsed). rewrite <- app_assoc.
    split; [reflexivity|constructor; assumption].
Qed.

(** X7: When ParseLines returns without error, the scanner met no fault and
    the i-th returned line is the result of ParseLine on the i-th physical
    line: one entry per source line, in order. *)
Theorem parsed_lines_match_source_lines :
  forall src ls,
    ParseLines src = (ls, None) ->
    snd (scanLines src) = false /\
    Forall2 (fun text l => ParseLine text = inl l) (fst (scanLines src)) ls.
Proof.
  intros src ls. unfold ParseLines.
  destruct (scanLines src) as [texts scanErr]. intros H.
  destruct (parseFrom_success _ _ _ _ _ H) as (He & parsed & -> & Hall).
  split; assumption.
Qed.

(** X8: Rendering a comment with a non-empty body and parsing the rendering
    gives back a line with no token and the same comment. *)
Theorem comment_round_trip :
  forall body, body <> "" ->
    ParseLine (CommentString {| Comment := body |})
    = inl {| Tokens := []; TLComment := {| Comment := body |} |}.
Proof.
  intros body Hne. unfold CommentString. simpl Comment.
  assert (Hc : ParseCommentToken ("; " ++ body)
               = (Some (TComment {| Comment := body |}), "")).
  { unfold ParseCommentToken. simpl.
    destruct body as [|c body]; [congruence|].
    simpl. reflexivity. }
  unfold ParseLine, TokenParsers.
  change (runParsers (ParseCommentToken :: ?ps) ?line)
    with (let (token, line') := ParseCommentToken line in
          let here := match token with Some t => [t] | None => [] end in
          if String.eqb line' "" then (here, line')
          else let (more, final) := runParsers ps line' in
               ((here ++ more)%list, final)).
  rewrite Hc. reflexivity.
Qed.

Lemma word_facts c : Re.isWord c = true ->
  Re.isSpace c = false /\ Ascii.eqb c Str.dquote = false /\
  Ascii.eqb c "'"%char = false /\
  forall s, Str.leadingSpace (String c s) = None.
Proof.
  intros H. destruct c as [[] [] [] [] [] [] [] []];
    try (vm_compute in H; discriminate H).
  all: repeat split; intros; vm_compute; reflexivity.
Qed.

Lemma noQuotes_word w : wordOnly w = true ->
  forall r, noQuotesFrom None "x" (w ++ r) = w ++ noQuotesFrom None "x" r.
Proof.
  induction w as [|c w IH]; intros Hw r; [reflexivity|].
  simpl in Hw. apply andb_true_iff in Hw. destruct Hw as [Hc Hw].
  destruct (word_facts c Hc) as (_ & Hd & Hq & _).
  simpl. rewrite Hd, Hq. simpl. rewrite (IH Hw). reflexivity.
Qed.

Lemma span_word w : wordOnly w = true ->
  forall z, Re.span Re.isWord (w ++ String Str.tab z) = String.length w.
Proof.
  induction w as [|c w IH]; intros Hw z; [reflexivity|].
  simpl in Hw. apply andb_true_iff in Hw. destruct Hw as [Hc Hw].
  simpl. rewrite Hc, (IH Hw). reflexivity.
Qed.

Lemma take_app w : forall r, Str.take (String.length w) (w ++ r) = w.
Proof. induction w as [|c w IH]; intros r; simpl; [destruct r|rewrite IH]; reflexivity. Qed.

Lemma drop_app w : forall r, Str.drop (String.length w) (w ++ r) = r.
Proof. induction w as [|c w IH]; intros r; simpl; auto. Qed.

Lemma rev_onto_app s : forall acc, Str.rev_onto s acc = Str.rev s ++ acc.
Proof.
  unfold Str.rev. induction s as [|c s IH]; intros acc; [reflexivity|].
  simpl. rewrite IH, (IH (String c "")), append_assoc. reflexivity.
Qed.

Lemma rev_onto_append a : forall b acc,
  Str.rev_onto (a ++ b) acc = Str.rev_onto b (Str.rev_onto a acc).
Proof. induction a as [|c a IH]; intros b acc; simpl; auto. Qed.

Lemma rev_app a b : Str.rev (a ++ b) = Str.rev b ++ Str.rev a.
Proof.
  unfold Str.rev. rewrite rev_onto_append.
  apply (rev_onto_app b (Str.rev_onto a "")).
Qed.

Lemma rev_involutive s : Str.rev (Str.rev s) = s.
Proof.
  induction s as [|c s IH]; [reflexivity|].
  change (String c s) with (String c "" ++ s) at 1.
  rewrite rev_app, rev_app, IH. reflexivity.
Qed.

Lemma splitAux_nocomma a : Str.containsByte ","%char a = false ->
  forall cur, Str.splitAux ","%char a cur = [Str.rev cur ++ a].
Proof.
  induction a as [|c a IH]; intros H cur.
  - simpl. rewrite append_nil_r. reflexivity.
  - unfold Str.containsByte in H. cbn [Str.indexByte] in H.
    cbn [Str.splitAux]. rewrite (Ascii.eqb_sym c ","%char). revert H.
    destruct (Ascii.eqb ","%char c) eqn:E; [discriminate|].
    destruct (Str.indexByte ","%char a) eqn:Ei; [discriminate|]. intros _.
    rewrite IH by (unfold Str.containsByte; rewrite Ei; reflexivity).
    unfold Str.rev at 1. cbn [Str.rev_onto].
    rewrite rev_onto_app, append_assoc. reflexivity.
Qed.

Lemma split_nocomma a : Str.containsByte ","%char a = false ->
  Str.split ","%char a = [a].
Proof. intros H. apply (splitAux_nocomma a H ""). Qed.

Lemma containsByte_app c a b :
  Str.containsByte c (a ++ b) = Str.containsByte c a || Str.containsByte c b.
Proof.
  unfold Str.containsByte. induction a as [|x a IH]; simpl.
  - reflexivity.
  - destruct (Ascii.eqb c x); [reflexivity|].
    destruct (Str.indexByte c (a ++ b)), (Str.indexByte c a); simpl in *;
      try reflexivity; try discriminate; exact IH.
Qed.

Lemma split_join : forall args p,
  args <> [] ->
  Forall (fun a => Str.containsByte ","%char a = false) args ->
  Str.containsByte ","%char p = false ->
  Str.split ","%char (p ++ Str.join ", " args)
  = (p ++ hd "" args) :: map (fun a => " " ++ a) (tl args).
Proof.
  induction args as [|a args IH]; intros p Hne Hall Hp; [congruence|].
  inversion Hall as [|? ? Ha Hrest]; subst.
  destruct args as [|b args].
  - simpl. apply split_nocomma. rewrite containsByte_app, Hp, Ha. reflexivity.
  - change (Str.join ", " (a :: b :: args))
      with (a ++ String ","%char (" " ++ Str.join ", " (b :: args))).
    rewrite <- append_assoc, split_app, split_nocomma
      by (rewrite containsByte_app, Hp, Ha; reflexivity).
    rewrite (IH " "); [reflexivity|discriminate|exact Hrest|reflexivity].
Qed.

Lemma trimLeftSpace_tab a :
  Str.trimLeftSpace (String Str.tab a) = Str.trimLeftSpace a.
Proof.
  unfold Str.trimLeftSpace. simpl String.length. cbn [Str.trimLeftFuel].
  assert (H : Str.leadingSpace (String Str.tab a) = Some 1)
    by (destruct a; vm_compute; reflexivity).
  rewrite H. reflexivity.
Qed.

Lemma trimLeftSpace_space a :
  Str.trimLeftSpace (String " "%char a) = Str.trimLeftSpace a.
Proof.
  unfold Str.trimLeftSpace. simpl String.length. cbn [Str.trimLeftFuel].
  assert (H : Str.leadingSpace (String " "%char a) = Some 1)
    by (destruct a; vm_compute; reflexivity).
  rewrite H. reflexivity.
Qed.

Lemma trimLeftSpace_word c s :
  Re.isWord c = true -> Str.trimLeftSpace (String c s) = String c s.
Proof.
  intros Hc. destruct (word_facts c Hc) as (_ & _ & _ & Hl).
  unfold Str.trimLeftSpace. simpl String.length. cbn [Str.trimLeftFuel].
  rewrite Hl. reflexivity.
Qed.

Lemma instrSearch_word w z :
  w <> "" -> wordOnly w = true ->
  instrSearch 0 (w ++ String Str.tab z) = Some (0, String.length w).
Proof.
  intros Hne Hw. destruct w as [|c w]; [congruence|].
  pose proof (span_word (String c w) Hw z) as Hs.
  simpl in Hw. apply andb_true_iff in Hw. destruct Hw as [Hc Hw].
  destruct (word_facts c Hc) as (Hsp & _).
  cbn [append instrSearch Re.span]. rewrite Hsp. cbn [Str.drop].
  change (String c (w ++ String Str.tab z))
    with (String c w ++ String Str.tab z).
  rewrite Hs. reflexivity.
Qed.

Lemma trimSpace_tab a : Str.trimSpace (String Str.tab a) = Str.trimSpace a.
Proof. unfold Str.trimSpace. rewrite trimLeftSpace_tab. reflexivity. Qed.

Lemma trimSpace_space a : Str.trimSpace (String " "%char a) = Str.trimSpace a.
Proof. unfold Str.trimSpace. rewrite trimLeftSpace_space. reflexivity. Qed.

Lemma trim_spaced l : Forall cleanOperand l ->
  map Str.trimSpace (map (fun a => " " ++ a) l) = l.
Proof.
  induction 1 as [|b l [_ Hb] _ IH]; [reflexivity|].
  cbn [map]. change (" " ++ b) with (String " "%char b).
  rewrite trimSpace_space, Hb, IH. reflexivity.
Qed.

(** X9: For an instruction token whose mnemonic is a non-empty run of word
    characters and that has at least one operand, each operand free of
    commas and of surrounding white space, ParseInstructionToken of its
    String() gives back the token and leaves no text. *)
Theorem instruction_round_trip :
  forall t,
    Instr t <> "" -> wordOnly (Instr t) = true ->
    Args t <> [] -> Forall cleanOperand (Args t) ->
    ParseInstructionToken (InstructionString t) = (Some (TInstruction t), "").
Proof.
  intros [instr args] Hne Hw Hargs Hclean. simpl in *.
  assert (Hstr : InstructionString {| Instr := instr; Args := args |}
                 = instr ++ String Str.tab (Str.join ", " args)).
  { unfold InstructionString. simpl. destruct args; [congruence|reflexivity]. }
  rewrite Hstr. unfold ParseInstructionToken.
  assert (Htrim : Str.trimLeftSpace (instr ++ String Str.tab (Str.join ", " args))
                  = instr ++ String Str.tab (Str.join ", " args)).
  { destruct instr as [|c instr]; [congruence|].
    simpl in Hw. apply andb_true_iff in Hw.
    apply trimLeftSpace_word. tauto. }
  rewrite Htrim. unfold NoQuotes. rewrite (noQuotes_word instr Hw).
  change (noQuotesFrom None "x" (String Str.tab ?r))
    with (String Str.tab (noQuotesFrom None "x" r)).
  rewrite (instrSearch_word instr _ Hne Hw).
  unfold Str.slice. rewrite Nat.sub_0_r. cbn [Str.drop].
  rewrite take_app, drop_app.
  change (String Str.tab (Str.join ", " args))
    with (String Str.tab "" ++ Str.join ", " args).
  rewrite (split_join args (String Str.tab "") Hargs);
    [|revert Hclean; apply Forall_impl; unfold cleanOperand; tauto|reflexivity].
  do 3 f_equal.
  destruct args as [|a args]; [congruence|].
  inversion Hclean as [|? ? [_ Ha] Hrest]; subst.
  cbn [hd tl map]. change (String Str.tab "" ++ a) with (String Str.tab a).
  rewrite trimSpace_tab, Ha, (trim_spaced args Hrest). reflexivity.
Qed.

Lemma noQuotes_quoteFree s : quoteFree s = true -> forall repl, NoQuotes s repl = s.
Proof.
  unfold NoQuotes. induction s as [|c s IH]; intros H repl; [reflexivity|].
  simpl in H. apply andb_true_iff in H. destruct H as [Hc Hs].
  apply negb_true_iff in Hc. simpl. rewrite Hc. simpl. rewrite (IH Hs). reflexivity.
Qed.

Lemma quoteFree_app a b : quoteFree (a ++ b) = quoteFree a && quoteFree b.
Proof.
  induction a as [|c a IH]; [reflexivity|]. simpl. rewrite IH, andb_assoc. reflexivity.
Qed.

Lemma indexByte_app_miss c a b :
  Str.containsByte c a = false ->
  Str.indexByte c (a ++ String c b) = Some (String.length a).
Proof.
  unfold Str.containsByte. induction a as [|x a IH]; intros H; simpl.
  - rewrite Ascii.eqb_refl. reflexivity.
  - simpl in H. destruct (Ascii.eqb c x); [discriminate|].
    destruct (Str.indexByte c a) eqn:E; [discriminate|].
    rewrite (IH eq_refl). reflexivity.
Qed.

(** X10: For a label without quote characters, without colon and without
    surrounding white space, ParseLabelToken of its String() gives back the
    label and leaves no text. *)
Theorem label_round_trip :
  forall t,
    quoteFree (Label t) = true ->
    Str.containsByte ":"%char (Label t) = false ->
    Str.trimSpace (Label t) = Label t ->
    ParseLabelToken (LabelString t) = (Some (TLabel t), "").
Proof.
  intros [label] Hq Hc Ht. simpl in *. unfold LabelString, ParseLabelToken.
  simpl Label.
  rewrite noQuotes_quoteFree by (rewrite quoteFree_app, Hq; reflexivity).
  rewrite (indexByte_app_miss ":"%char label "" Hc).
  rewrite Nat.add_1_r.
  assert (Hd : Str.drop (S (String.length label)) (label ++ ":") = "").
  { clear. induction label as [|c l IH]; [reflexivity|exact IH]. }
  rewrite Hd, take_app, Ht. reflexivity.
Qed.








Lemma writeBlock_ends_nl cfg block out :
  writeBlock block cfg = Some out -> endsWith nlStr out.
Proof.
  destruct block as [|l block].
  - vm_compute. intros H; injection H as <-. exists "". reflexivity.
  - intros H. apply (endsWith_trans _ (nlStr ++ nlStr)).
    + exists nlStr. reflexivity.
    + apply (writeBlock_ends_blank cfg (l :: block)); [discriminate|exact H].
Qed.

Lemma writeBlocks_ends_nl cfg : forall blocks out,
  blocks <> [] -> writeBlocks blocks cfg = Some out -> endsWith nlStr out.
Proof.
  induction blocks as [|b blocks IH]; intros out Hne H; [congruence|].
  simpl in H. destruct (writeBlock b cfg) as [ob|] eqn:Eb; [|discriminate].
  destruct (writeBlocks blocks cfg) as [o|] eqn:E; [|discriminate].
  injection H as <-. destruct blocks as [|b' blocks].
  - simpl in E. injection E as <-. rewrite append_nil_r.
    apply (writeBlock_ends_nl cfg b). exact Eb.
  - apply endsWith_app. apply IH; [discriminate|reflexivity].
Qed.

(** X12: Whatever Format writes ends with a newline; in particular the
    output is never empty. *)
Theorem output_ends_with_newline :
  forall src cfg out, Format src cfg = Written out -> endsWith nlStr out.
Proof.
  intros src cfg out. unfold Format, formatLines.
  destruct (Parse src) as [lines|e]; [|discriminate].
  destruct (writeBlocks (segment lines) cfg) as [o|] eqn:E; [|discriminate].
  intros H; injection H as <-.
  apply (writeBlocks_ends_nl cfg (segment lines)); [|exact E].
  unfold segment, blocksOf. destruct (closed _); discriminate.
Qed.

Lemma In_concat_block (blocks : list Lines) block l :
  In block blocks -> In l block -> In l (concat blocks).
Proof.
  intros Hb Hl. apply in_concat. exists block. split; assumption.
Qed.

(** X2: Format always builds at least one block; only the last block can be
    nil, and no block holds an empty line. *)
Theorem segment_blocks_shape :
  forall lines,
    exists front final,
      segment lines = (front ++ [final])%list /\
      Forall (fun block => block <> []) front /\
      Forall (Forall (fun l => IsEmpty l = false)) (segment lines).
Proof.
  intros lines.
  destruct (segment_inv lines initBlocks) as [Hc _]; [split; constructor|].
  exists (closed (fold_left segmentStep lines initBlocks)),
         (cur (fold_left segmentStep lines initBlocks)).
  split; [reflexivity|]. split.
  - revert Hc. apply Forall_impl. tauto.
  - apply Forall_forall. intros block Hb. apply Forall_forall. intros l Hl.
    pose proof (In_concat_block _ _ _ Hb Hl) as Hin.
    rewrite segment_concat in Hin.
    apply filter_In in Hin. destruct Hin as [_ Hn].
    unfold nonEmpty in Hn. apply negb_true_iff in Hn. exact Hn.
Qed.

Section OverlayMore.
Variable cfg : FormatConfig.
Variable block : Lines.

Lemma overlayFrom_at_prev todo : forall i0 lines i,
  i0 <= i < i0 + todo -> i < List.length block -> i < List.length lines ->
  exists lines',
    nth i lines' "" = nth i lines "" /\
    (forall j, j < i ->
       nth j lines' "" = nth j (overlayFrom cfg block todo i0 lines) "") /\
    nth i (overlayFrom cfg block todo i0 lines) ""
    = match overlayAt cfg block lines' i with
      | Some s => s
      | None => nth i lines ""
      end.
Proof.
  induction todo as [|todo IH]; intros i0 lines i Hi Hb Hl; [lia|].
  cbn [overlayFrom]. destruct (Nat.eq_dec i0 i) as [->|Hne].
  - destruct (Nat.leb_spec (List.length block) i); [lia|].
    exists lines. split; [reflexivity|].
    destruct (overlayAt cfg block lines i) eqn:E.
    + split.
      * intros j Hj. rewrite overlayFrom_below by lia.
        symmetry. apply nth_setNth_neq. lia.
      * rewrite overlayFrom_below by lia. apply nth_setNth_eq; auto.
    + split.
      * intros j Hj. rewrite overlayFrom_below by lia. reflexivity.
      * apply overlayFrom_below; lia.
  - destruct (Nat.leb_spec (List.length block) i0); [lia|].
    destruct (overlayAt cfg block lines i0) eqn:E.
    + destruct (IH (S i0) (setNth i0 s lines) i) as (l' & H1 & H2 & H3);
        try lia; [rewrite setNth_length; auto|].
      rewrite nth_setNth_neq in H1, H3 by auto.
      exists l'. repeat split; auto.
    + destruct (IH (S i0) lines i) as (l' & H1 & H2 & H3); try lia.
      exists l'. repeat split; auto.
Qed.

End OverlayMore.

(** X13: On a block line without token and with a comment, the overlay
    writes the aligned line, then as many spaces as the index of the first ;
    outside quotes of the line above as the overlay left it (none for the
    first line of the block, for an empty line above or for a line above
    without ;), then the comment. *)
Theorem standalone_comment_alignment :
  forall cfg block lines i line,
    nth_error block i = Some line ->
    LToken line = None ->
    commentIsZero (LComment line) = false ->
    i < List.length lines ->
    nth i (overlay cfg block lines) ""
    = nth i lines ""
      ++ Str.spaces (if 0 <? i
                     then alignTo (nth (i - 1) (overlay cfg block lines) "")
                     else 0)
      ++ "; " ++ Comment (LComment line).
Proof.
  intros cfg block lines i line Hnth Htok Hcmt Hi.
  assert (Hb : i < List.length block) by (apply nth_error_Some; congruence).
  destruct (overlayFrom_at_prev cfg block (List.length lines) 0 lines i)
    as (lines' & Hs & Hprev & Hov); try lia.
  fold (overlay cfg block lines) in Hprev, Hov.
  rewrite Hov. unfold overlayAt.
  rewrite (nth_error_nth _ _ _ Hnth), Hcmt, Htok, Hs. unfold CommentString.
  destruct (Nat.ltb_spec 0 i) as [Hpos|Hz]; simpl andb.
  - rewrite (Hprev (i - 1)) by lia. unfold alignTo.
    destruct (String.eqb (nth (i - 1) (overlay cfg block lines) "") ""); simpl.
    + reflexivity.
    + destruct (Str.indexByte _ _); simpl; rewrite ?append_assoc; reflexivity.
  - reflexivity.
Qed.

(** X14: The overlay leaves unchanged every aligned line beyond the block
    and every line whose block entry has no comment. *)
Theorem overlay_keeps_other_lines :
  forall cfg block lines i,
    List.length block <= i \/
    (exists line, nth_error block i = Some line /\
                  commentIsZero (LComment line) = true) ->
    nth i (overlay cfg block lines) "" = nth i lines "".
Proof.
  intros cfg block lines i [Hge|(line & Hnth & Hz)].
  - apply overlayFrom_above. exact Hge.
  - destruct (Nat.lt_ge_cases i (List.length lines)) as [Hi|Hi].
    + assert (Hb : i < List.length block) by (apply nth_error_Some; congruence).
      destruct (overlay_at cfg block lines i Hb Hi) as (lines' & Hs & Hov).
      rewrite Hov. unfold overlayAt.
      rewrite (nth_error_nth _ _ _ Hnth), Hz. reflexivity.
    + rewrite !nth_overflow; auto.
      unfold overlay. rewrite overlayFrom_length. exact Hi.
Qed.

Lemma prefix_empty s : String.prefix "" s = true.
Proof. destruct s; reflexivity. Qed.

Lemma trimSuffix_char c x :
  Str.trimSuffix (String c "") (x ++ String c "") = x.
Proof.
  unfold Str.trimSuffix. rewrite rev_app.
  change (Str.rev (String c "")) with (String c "").
  cbn [append String.prefix String.length Str.drop].
  destruct (ascii_dec c c) as [_|Hn]; [|congruence].
  rewrite prefix_empty. apply rev_involutive.
Qed.

Lemma linesBuffer_join ls : ls <> [] ->
  linesBuffer ls = Str.join nlStr (map LineString ls) ++ nlStr.
Proof.
  induction ls as [|l ls IH]; [congruence|intros _].
  destruct ls as [|l' ls]; [reflexivity|].
  change (linesBuffer (l :: l' :: ls))
    with (LineString l ++ String Str.nl (linesBuffer (l' :: ls))).
  rewrite IH by discriminate.
  change (Str.join nlStr (map LineString (l :: l' :: ls)))
    with (LineString l ++ nlStr ++ Str.join nlStr (map LineString (l' :: ls))).
  rewrite !append_assoc. reflexivity.
Qed.

(** X15: Lines.String is the rendered lines joined by newlines: writing a
    newline after each line and trimming one newline at the end is
    strings.Join; no lines give the empty string. *)
Theorem LinesString_is_join :
  forall ls, LinesString ls = Str.join nlStr (map LineString ls).
Proof.
  intros ls. unfold LinesString. destruct ls as [|l ls]; [reflexivity|].
  rewrite linesBuffer_join by discriminate. apply trimSuffix_char.
Qed.

Lemma tokensBuffer_app ts us :
  tokensBuffer (ts ++ us) = tokensBuffer ts ++ tokensBuffer us.
Proof.
  induction ts as [|t ts IH]; [reflexivity|].
  simpl. rewrite IH, append_assoc. reflexivity.
Qed.

(** X16: Line.String of the slice-based Line renders the tokens, a tab after
    each, and then always ; and the comment body, also when the line has no
    comment. *)
Theorem TokenLineString_always_marks_comment :
  forall l,
    TokenLineString l
    = tokensBuffer (Tokens l) ++ "; " ++ Comment (TLComment l).
Proof.
  intros l. unfold TokenLineString. rewrite tokensBuffer_app.
  cbn [tokensBuffer TokenString]. unfold CommentString.
  replace (tokensBuffer (Tokens l)
           ++ ("; " ++ Comment (TLComment l)) ++ String Str.tab "")
    with ((tokensBuffer (Tokens l) ++ "; " ++ Comment (TLComment l))
          ++ String Str.tab "")
    by (rewrite !append_assoc; reflexivity).
  apply trimSuffix_char.
Qed.

Lemma fold_all_empty lines : Forall (fun l => IsEmpty l = true) lines ->
  fold_left segmentStep lines initBlocks = initBlocks.
Proof.
  induction 1 as [|l lines Hl _ IH]; [reflexivity|].
  cbn [fold_left]. rewrite (segmentStep_empty _ l Hl). exact IH.
Qed.

(** X17: When every parsed line is empty, the blocks are one nil block and
    the output is a single newline, whatever the number of lines and the
    configuration. *)
Theorem blank_lines_format_to_one_newline :
  forall lines cfg,
    Forall (fun l => IsEmpty l = true) lines ->
    formatLines lines cfg = Written nlStr.
Proof.
  intros lines cfg H. unfold formatLines, segment.
  rewrite (fold_all_empty lines H). reflexivity.
Qed.

Lemma noQuotes_index c : Ascii.eqb c "x"%char = false ->
  forall s inside i,
    Str.indexByte c (noQuotesFrom inside "x" s) = Some i ->
    exists a b, s = a ++ String c b /\ String.length a = i.
Proof.
  intros Hx. induction s as [|d s IH]; intros inside i H; [discriminate|].
  assert (Hkeep : forall ins,
    Str.indexByte c (String d (noQuotesFrom ins "x" s)) = Some i ->
    exists a b, String d s = a ++ String c b /\ String.length a = i).
  { intros ins Hi. cbn [Str.indexByte] in Hi.
    destruct (Ascii.eqb c d) eqn:E.
    - injection Hi as <-. apply Ascii.eqb_eq in E. subst d.
      exists "", s. split; reflexivity.
    - destruct (Str.indexByte c (noQuotesFrom ins "x" s)) as [j|] eqn:Ej;
        [|discriminate].
      injection Hi as <-. destruct (IH ins j Ej) as (a & b & -> & <-).
      exists (String d a), b. split; reflexivity. }
  cbn [noQuotesFrom] in H. destruct inside as [q|].
  - destruct (Ascii.eqb d q); [exact (Hkeep _ H)|].
    change ("x" ++ noQuotesFrom (Some q) "x" s)
      with (String "x"%char (noQuotesFrom (Some q) "x" s)) in H.
    cbn [Str.indexByte] in H. rewrite Hx in H.
    destruct (Str.indexByte c (noQuotesFrom (Some q) "x" s)) as [j|] eqn:Ej;
      [|discriminate].
    injection H as <-. destruct (IH (Some q) j Ej) as (a & b & -> & <-).
    exists (String d a), b. split; reflexivity.
  - destruct ((Ascii.eqb d Str.dquote || Ascii.eqb d "'"%char)
              && Str.containsByte d s); exact (Hkeep _ H).
Qed.

Lemma take_drop_at a c b :
  Str.take (String.length a) (a ++ String c b) = a /\
  Str.drop (String.length a + 1) (a ++ String c b) = b.
Proof.
  split; [apply take_app|].
  induction a as [|x a IH]; [reflexivity|exact IH].
Qed.

(** X18: When ParseCommentToken returns a comment, the line is the returned
    code, a ; and the raw comment text: nothing is lost; the body is the raw
    text without one leading space, or the raw text itself when it is a
    single space. *)
Theorem comment_cuts_line_at_semicolon :
  forall line c rest,
    ParseCommentToken line = (Some (TComment c), rest) ->
    exists raw,
      line = rest ++ String ";"%char raw /\
      Comment c = (if String.eqb raw " " then raw else Str.trimPrefix " " raw).
Proof.
  intros line c rest. unfold ParseCommentToken.
  destruct (Str.indexByte ";"%char (NoQuotes line "x")) as [idx|] eqn:E;
    [|discriminate].
  destruct (noQuotes_index ";"%char eq_refl line None idx E) as (a & b & -> & <-).
  destruct (take_drop_at a ";"%char b) as [Ht Hd]. rewrite Ht, Hd.
  intros H; injection H as <- <-. exists b. split; reflexivity.
Qed.

(** X19: When ParseLabelToken returns a label, the line is some text, a :
    and the returned rest; the label is that text trimmed, and the rest does
    not hold both [ and ]. *)
Theorem label_cuts_line_at_colon :
  forall line t rest,
    ParseLabelToken line = (Some (TLabel t), rest) ->
    exists before,
      line = before ++ String ":"%char rest /\
      Label t = Str.trimSpace before /\
      (Str.containsByte "["%char rest && Str.containsByte "]"%char rest) = false.
Proof.
  intros line t rest. unfold ParseLabelToken.
  destruct (Str.indexByte ":"%char (NoQuotes line "x")) as [idx|] eqn:E;
    [|discriminate].
  destruct (noQuotes_index ":"%char eq_refl line None idx E) as (a & b & -> & <-).
  destruct (take_drop_at a ":"%char b) as [Ht Hd]. rewrite Ht, Hd.
  destruct (Str.containsByte "["%char b && Str.containsByte "]"%char b) eqn:Eb;
    [discriminate|].
  intros H; injection H as <- <-. exists a. repeat split. exact Eb.
Qed.

Lemma blankByte_cases c : blankByte c = true -> c = " "%char \/ c = Str.tab.
Proof.
  unfold blankByte. intros H. apply orb_true_iff in H.
  destruct H as [H|H]; apply Ascii.eqb_eq in H; auto.
Qed.

Lemma blank_cons c s : blankOnly (String c s) = true ->
  (c = " "%char \/ c = Str.tab) /\ blankOnly s = true.
Proof.
  simpl. intros H. apply andb_true_iff in H. destruct H as [Hc Hs].
  split; [apply blankByte_cases; exact Hc|exact Hs].
Qed.

Lemma blank_quoteFree s : blankOnly s = true -> quoteFree s = true.
Proof.
  induction s as [|c s IH]; [reflexivity|]. intros H.
  destruct (blank_cons c s H) as [[->| ->] Hs]; simpl; rewrite (IH Hs); reflexivity.
Qed.

Lemma blank_no_byte c s :
  blankByte c = false -> blankOnly s = true -> Str.indexByte c s = None.
Proof.
  intros Hc. induction s as [|d s IH]; [reflexivity|]. intros H.
  destruct (blank_cons d s H) as [Hd Hs]. cbn [Str.indexByte].
  rewrite (IH Hs).
  destruct (Ascii.eqb c d) eqn:E; [|reflexivity].
  apply Ascii.eqb_eq in E. subst d.
  destruct Hd as [-> | ->]; discriminate Hc.
Qed.

Lemma blank_span s : blankOnly s = true ->
  Str.drop (Re.span Re.isSpace s) s = "" /\ Str.trimLeftSpace s = "".
Proof.
  induction s as [|c s IH]; [split; reflexivity|]. intros H.
  destruct (blank_cons c s H) as [[->| ->] Hs]; destruct (IH Hs) as [H1 H2];
    (split; [exact H1|]);
    [rewrite trimLeftSpace_space|rewrite trimLeftSpace_tab]; exact H2.
Qed.

Lemma blank_no_keyword {A} kws (k : nat -> string -> option A) s :
  kws = sectionKeywords \/ kws = directiveKeywords \/ kws = pseudoKeywords ->
  blankOnly s = true -> firstAlt kws s k = None.
Proof.
  intros Hk H. destruct s as [|c s].
  - destruct Hk as [->|[->| ->]]; reflexivity.
  - destruct (blank_cons c s H) as [[->| ->] _];
      destruct Hk as [->|[->| ->]]; reflexivity.
Qed.

Lemma blank_keywordLine kws s :
  kws = sectionKeywords \/ kws = directiveKeywords ->
  blankOnly s = true -> keywordLineRe kws s = None.
Proof.
  intros Hk H. unfold keywordLineRe.
  destruct (blank_span s H) as [-> _].
  apply blank_no_keyword; [tauto|reflexivity].
Qed.

Lemma blank_pseudoTail s : blankOnly s = true -> forall p, pseudoTail p s = None.
Proof.
  intros H p. unfold pseudoTail.
  assert (Hk : forall q t, blankOnly t = true ->
    firstAlt pseudoKeywords t (fun n r =>
      match r with
      | String c _ => if isSpaceOrQuote c then Some (q, q + n) else None
      | EmptyString => None
      end) = None).
  { intros q t Ht. apply blank_no_keyword; auto. }
  destruct s as [|c s].
  - rewrite Hk by reflexivity. destruct (p =? 0); reflexivity.
  - destruct (blank_cons c s H) as [Hc Hs].
    rewrite (Hk (p + 1) s Hs), (Hk p (String c s) H).
    destruct (Re.isSpace c), (p =? 0); reflexivity.
Qed.

Lemma blank_pseudoSearch s : blankOnly s = true -> forall k, pseudoSearch k s = None.
Proof.
  induction s as [|c s IH]; intros H k.
  - cbn [pseudoSearch]. rewrite blank_pseudoTail by reflexivity. reflexivity.
  - destruct (blank_cons c s H) as [Hc Hs].
    cbn [pseudoSearch]. rewrite (blank_pseudoTail (String c s) H).
    rewrite (blank_pseudoTail s Hs), (IH Hs).
    destruct Hc as [-> | ->]; reflexivity.
Qed.

(** X20: Every line made of spaces and tabs only, the empty line included,
    is accepted by ParseLine with no token and no comment. *)
Theorem blank_line_parses_empty :
  forall s, blankOnly s = true ->
    ParseLine s = inl {| Tokens := []; TLComment := noComment |}.
Proof.
  intros s H.
  pose proof (noQuotes_quoteFree s (blank_quoteFree s H) "x") as Hq.
  assert (Hc : ParseCommentToken s = (None, s)).
  { unfold ParseCommentToken. rewrite Hq, blank_no_byte; auto. }
  assert (Hs : ParseSectionToken s = (None, s)).
  { unfold ParseSectionToken. rewrite Hq, blank_keywordLine; auto. }
  assert (Hd : ParseDirectiveToken s = (None, s)).
  { unfold ParseDirectiveToken. rewrite Hq, blank_keywordLine; auto. }
  assert (Hp : ParsePseudoToken s = (None, s)).
  { unfold ParsePseudoToken. rewrite Hq, blank_pseudoSearch; auto. }
  assert (Hl : ParseLabelToken s = (None, s)).
  { unfold ParseLabelToken. rewrite Hq, blank_no_byte; auto. }
  assert (Hi : ParseInstructionToken s = (None, "")).
  { unfold ParseInstructionToken. destruct (blank_span s H) as [_ ->]. reflexivity. }
  unfold ParseLine, TokenParsers. cbn [runParsers].
  rewrite Hc, Hs, Hd, Hp, Hl, Hi.
  destruct (String.eqb s "") eqn:E; [|reflexivity].
  apply String.eqb_eq in E. subst s. reflexivity.
Qed.

Lemma overlayAt_agree cfg block lines i :
  Forall (fun l => paddedAlike l = true) block ->
  i < List.length block ->
  MainV1.overlayAt cfg block lines i = overlayAt cfg block lines i.
Proof.
  intros Hall Hi. unfold MainV1.overlayAt, overlayAt.
  assert (Hp : paddedAlike (nth i block emptyLine) = true).
  { rewrite Forall_forall in Hall. apply Hall, nth_In, Hi. }
  unfold paddedAlike, isInstruction in Hp.
  destruct (commentIsZero (LComment (nth i block emptyLine))); [reflexivity|].
  destruct (LToken (nth i block emptyLine)) as [[]|]; try reflexivity;
    discriminate Hp.
Qed.

Lemma overlayFrom_agree cfg block :
  Forall (fun l => paddedAlike l = true) block ->
  forall todo i lines,
    MainV1.overlayFrom cfg block todo i lines = overlayFrom cfg block todo i lines.
Proof.
  intros Hall. induction todo as [|todo IH]; intros i lines; [reflexivity|].
  cbn [MainV1.overlayFrom overlayFrom].
  destruct (Nat.leb_spec (List.length block) i); [reflexivity|].
  rewrite overlayAt_agree by assumption.
  destruct (overlayAt cfg block lines i); apply IH.
Qed.

Lemma terminated_join ls :
  ls <> [] -> terminated ls = Str.join nlStr ls ++ nlStr.
Proof.
  induction ls as [|l ls IH]; [congruence|intros _].
  destruct ls as [|l' ls]; [reflexivity|].
  change (terminated (l :: l' :: ls)) with (l ++ nlStr ++ terminated (l' :: ls)).
  rewrite IH by discriminate.
  change (Str.join nlStr (l :: l' :: ls))
    with (l ++ nlStr ++ Str.join nlStr (l' :: ls)).
  rewrite !append_assoc. reflexivity.
Qed.

(** X21: For a block in which every commented line is an instruction or has
    no token, and whose lines after the overlay hold no tab, vertical tab,
    form feed, newline or 0xff byte, writeBlock of the earlier revision
    (join with newlines) and writeBlock of the current one (second alignment
    pass) write the same bytes. *)
Theorem revisions_write_the_same_block :
  forall cfg block strs,
    Forall (fun l => paddedAlike l = true) block ->
    writeLinesNoComment block cfg = Some strs ->
    Forall (fun l => plain l = true)
      (overlay cfg block (Str.split Str.nl (valign strs))) ->
    MainV1.writeBlock block cfg = writeBlock block cfg.
Proof.
  intros cfg block strs Hall Hs Hplain.
  unfold MainV1.writeBlock, writeBlock, MainV1.overlay. rewrite Hs.
  rewrite (overlayFrom_agree cfg block Hall).
  fold (overlay cfg block (Str.split Str.nl (valign strs))).
  rewrite (valign_plain _ Hplain), terminated_join; [reflexivity|].
  intros E. apply (f_equal (@List.length _)) in E.
  unfold overlay in E. rewrite overlayFrom_length, split_length in E. discriminate.
Qed.

Section OverlayV1.
Variable cfg : FormatConfig.
Variable block : Lines.

Lemma v1_overlayFrom_length todo : forall i lines,
  List.length (MainV1.overlayFrom cfg block todo i lines) = List.length lines.
Proof.
  induction todo as [|todo IH]; intros i lines; simpl; auto.
  destruct (List.length block <=? i); auto.
  destruct (MainV1.overlayAt cfg block lines i); rewrite IH; auto using setNth_length.
Qed.

Lemma v1_overlayFrom_below todo : forall i lines j, j < i ->
  nth j (MainV1.overlayFrom cfg block todo i lines) "" = nth j lines "".
Proof.
  induction todo as [|todo IH]; intros i lines j H; simpl; auto.
  destruct (List.length block <=? i); auto.
  destruct (MainV1.overlayAt cfg block lines i).
  - rewrite IH by lia. apply nth_setNth_neq; lia.
  - apply IH; lia.
Qed.

Lemma v1_overlayFrom_at todo : forall i0 lines i,
  i0 <= i < i0 + todo -> i < List.length block -> i < List.length lines ->
  exists lines',
    nth i lines' "" = nth i lines "" /\
    nth i (MainV1.overlayFrom cfg block todo i0 lines) ""
    = match MainV1.overlayAt cfg block lines' i with
      | Some s => s
      | None => nth i lines ""
      end.
Proof.
  induction todo as [|todo IH]; intros i0 lines i Hi Hb Hl; [lia|].
  simpl. destruct (Nat.eq_dec i0 i) as [->|Hne].
  - destruct (Nat.leb_spec (List.length block) i); [lia|].
    exists lines; split; auto.
    destruct (MainV1.overlayAt cfg block lines i) eqn:E.
    + rewrite v1_overlayFrom_below by lia. apply nth_setNth_eq; auto.
    + apply v1_overlayFrom_below; lia.
  - destruct (Nat.leb_spec (List.length block) i0); [lia|].
    destruct (MainV1.overlayAt cfg block lines i0) eqn:E.
    + destruct (IH (S i0) (setNth i0 s lines) i) as (l' & H1 & H2);
        try lia; [rewrite setNth_length; auto|].
      rewrite nth_setNth_neq in H1, H2 by auto.
      exists l'; split; auto.
    + destruct (IH (S i0) lines i) as (l' & H1 & H2); try lia.
      exists l'; split; auto.
Qed.

End OverlayV1.

(** X22: In the earlier revision, the overlay puts exactly one space between
    the aligned text of a non-instruction token and its comment. *)
Theorem v1_one_space_before_comment :
  forall cfg block lines i line t,
    nth_error block i = Some line ->
    LToken line = Some t ->
    isInstruction line = false ->
    commentIsZero (LComment line) = false ->
    i < List.length lines ->
    nth i (MainV1.overlay cfg block lines) ""
    = nth i lines "" ++ " " ++ "; " ++ Comment (LComment line).
Proof.
  intros cfg block lines i line t Hnth Htok Hins Hcmt Hi.
  assert (Hb : i < List.length block) by (apply nth_error_Some; congruence).
  destruct (v1_overlayFrom_at cfg block (List.length lines) 0 lines i)
    as (lines' & Hs & Hov); try lia.
  unfold MainV1.overlay. rewrite Hov. unfold MainV1.overlayAt.
  rewrite (nth_error_nth _ _ _ Hnth), Hcmt, Htok, Hs.
  unfold isInstruction in Hins. rewrite Htok in Hins.
  destruct t; try discriminate; unfold CommentString;
    rewrite append_assoc; reflexivity.
Qed.




(** X23: valign writes lines that hold no tab, vertical tab, form feed,
    newline or 0xff byte as they are, each followed by a newline. *)
Theorem aligner_keeps_plain_lines :
  forall ls, Forall (fun l => plain l = true) ls -> valign ls = terminated ls.
Proof. exact valign_plain. Qed.

(** X24: Whatever writeBlock writes for a block that is not nil ends with a
    blank line (two newlines). *)
Theorem block_output_ends_with_blank_line :
  forall cfg block out,
    block <> [] -> writeBlock block cfg = Some out ->
    endsWith (nlStr ++ nlStr) out.
Proof. exact writeBlock_ends_blank. Qed.

Lemma blank_runs_collapse_witness :
  segment ([labelLine "a"] ++ emptyLine :: emptyLine :: [labelLine "b"])%list
  = segment ([labelLine "a"] ++ emptyLine :: [labelLine "b"])%list.
Proof.
  apply (blank_runs_collapse [labelLine "a"] emptyLine emptyLine [labelLine "b"]);
    reflexivity.
Defined.

Lemma parsed_line_shape_witness :
  goodShape
    (Tokens {| Tokens := [TLabel {| Label := "a" |};
                          TInstruction {| Instr := "mov"; Args := ["x"] |}];
               TLComment := noComment |}).
Proof.
  apply (parsed_line_shape "a: mov x"). vm_compute. reflexivity.
Defined.

Lemma fault_excess_witness :
  "[" <> "" /\ Str.leadingSpace "[" = None /\ hasWord (NoQuotes "[" "x") = false.
Proof.
  apply (fault_excess_has_no_word "a: ["). vm_compute. reflexivity.
Defined.

Lemma parsed_lines_witness :
  snd (scanLines (unlines ["a:"; "b:"])) = false /\
  Forall2 (fun text l => ParseLine text = inl l)
    (fst (scanLines (unlines ["a:"; "b:"]))) [parsedLabel "a"; parsedLabel "b"].
Proof.
  apply (parsed_lines_match_source_lines (unlines ["a:"; "b:"])).
  vm_compute. reflexivity.
Defined.

Lemma comment_round_trip_witness :
  ParseLine (CommentString {| Comment := "x" |})
  = inl {| Tokens := []; TLComment := {| Comment := "x" |} |}.
Proof. apply (comment_round_trip "x"). discriminate. Defined.

Lemma instruction_round_trip_witness :
  ParseInstructionToken (InstructionString {| Instr := "mov"; Args := ["rax"; "1"] |})
  = (Some (TInstruction {| Instr := "mov"; Args := ["rax"; "1"] |}), "").
Proof.
  apply (instruction_round_trip {| Instr := "mov"; Args := ["rax"; "1"] |}).
  - discriminate.
  - reflexivity.
  - discriminate.
  - repeat constructor.
Defined.

Lemma label_round_trip_witness :
  ParseLabelToken (LabelString {| Label := "_start" |})
  = (Some (TLabel {| Label := "_start" |}), "").
Proof.
  apply (label_round_trip {| Label := "_start" |}); reflexivity.
Defined.

Lemma output_ends_with_newline_witness :
  endsWith nlStr (unlines ["a:"; ""; ""]).
Proof.
  apply (output_ends_with_newline "a:" defaultConfig). vm_compute. reflexivity.
Defined.

Lemma standalone_comment_witness :
  nth 1 (overlay defaultConfig [sampleInstr; commentLine "d"]
           ["        mov a"; ""; ""]) ""
  = nth 1 ["        mov a"; ""; ""] ""
    ++ Str.spaces
         (if 0 <? 1
          then alignTo (nth (1 - 1)
                          (overlay defaultConfig [sampleInstr; commentLine "d"]
                             ["        mov a"; ""; ""]) "")
          else 0)
    ++ "; " ++ Comment (LComment (commentLine "d")).
Proof.
  apply (standalone_comment_alignment defaultConfig
           [sampleInstr; commentLine "d"] ["        mov a"; ""; ""] 1
           (commentLine "d")); try reflexivity.
  simpl. lia.
Defined.

Lemma overlay_keeps_witness :
  nth 0 (overlay defaultConfig [labelLine "a"] ["a:"; ""]) "" = nth 0 ["a:"; ""] "".
Proof.
  apply (overlay_keeps_other_lines defaultConfig [labelLine "a"] ["a:"; ""] 0).
  right. exists (labelLine "a"). split; reflexivity.
Defined.

Lemma blank_lines_format_witness :
  formatLines [emptyLine; emptyLine] defaultConfig = Written nlStr.
Proof.
  apply (blank_lines_format_to_one_newline [emptyLine; emptyLine] defaultConfig).
  repeat constructor.
Defined.

Lemma comment_cuts_witness :
  exists raw,
    "mov a ;b" = "mov a " ++ String ";"%char raw /\
    Comment {| Comment := "b" |}
    = (if String.eqb raw " " then raw else Str.trimPrefix " " raw).
Proof.
  apply (comment_cuts_line_at_semicolon "mov a ;b" {| Comment := "b" |} "mov a ").
  vm_compute. reflexivity.
Defined.

Lemma label_cuts_witness :
  exists before,
    "a: b" = before ++ String ":"%char " b" /\
    Label {| Label := "a" |} = Str.trimSpace before /\
    (Str.containsByte "["%char " b" && Str.containsByte "]"%char " b") = false.
Proof.
  apply (label_cuts_line_at_colon "a: b" {| Label := "a" |} " b").
  vm_compute. reflexivity.
Defined.

Lemma blank_line_witness :
  ParseLine "   " = inl {| Tokens := []; TLComment := noComment |}.
Proof. apply (blank_line_parses_empty "   "). reflexivity. Defined.

Lemma revisions_witness :
  MainV1.writeBlock [sampleInstr] defaultConfig
  = writeBlock [sampleInstr] defaultConfig.
Proof.
  apply (revisions_write_the_same_block defaultConfig [sampleInstr]
           ["        " ++ tabbed "mov" "a"]).
  - repeat constructor.
  - vm_compute. reflexivity.
  - vm_compute. repeat constructor.
Defined.

Lemma v1_one_space_witness :
  nth 0 (MainV1.overlay defaultConfig [sampleLabel] ["a:"; ""]) ""
  = nth 0 ["a:"; ""] "" ++ " " ++ "; " ++ Comment (LComment sampleLabel).
Proof.
  apply (v1_one_space_before_comment defaultConfig [sampleLabel] ["a:"; ""] 0
           sampleLabel (TLabel {| Label := "a" |})); try reflexivity.
  simpl. lia.
Defined.

Lemma aligner_keeps_plain_witness :
  valign ["mov a"; "ret"] = terminated ["mov a"; "ret"].
Proof. apply (aligner_keeps_plain_lines ["mov a"; "ret"]). repeat constructor. Defined.

Lemma block_output_witness :
  endsWith (nlStr ++ nlStr) (unlines ["a:"; ""; ""]).
Proof.
  apply (block_output_ends_with_blank_line defaultConfig [labelLine "a"]).
  - discriminate.
  - vm_compute. reflexivity.
Defined.

Lemma name_spans name : nameOnly name = true ->
  Re.span Re.isSpace name = 0 /\
  Re.span notSemiSpace name = String.length name.
Proof.
  induction name as [|c name IH]; intros H; [split; reflexivity|].
  simpl in H. apply andb_true_iff in H. destruct H as [Hc Hn].
  destruct (IH Hn) as [_ H2]. cbn [Re.span]. rewrite Hc, H2.
  unfold notSemiSpace in Hc. apply andb_true_iff in Hc. destruct Hc as [_ Hs].
  apply negb_true_iff in Hs. rewrite Hs. split; reflexivity.
Qed.

Lemma drop_all s : Str.drop (String.length s) s = "".
Proof. induction s as [|c s IH]; [reflexivity|exact IH]. Qed.

Lemma keywordTail_name a n name : nameOnly name = true ->
  keywordTail a n (String " "%char name)
  = Some (a, a + n, a + n + 1, a + n + 1 + String.length name).
Proof.
  intros Hn. destruct (name_spans name Hn) as [Hsp Hnm].
  unfold keywordTail. cbn [Re.span]. change (Re.isSpace " "%char) with true.
  cbv iota. rewrite Hsp. cbn [Nat.eqb Str.drop]. rewrite Hnm, drop_all.
  reflexivity.
Qed.

Lemma keywordLineRe_unfold kws noq :
  keywordLineRe kws noq
  = firstAlt kws (Str.drop (Re.span Re.isSpace noq) noq)
      (keywordTail (Re.span Re.isSpace noq)).
Proof. reflexivity. Qed.

Lemma firstAlt_step {A} kw rest s (k : nat -> string -> option A) :
  firstAlt (kw :: rest) s k
  = match matchFold kw s with
    | Some n => match k n (Str.drop n s) with
                | Some r => Some r
                | None => firstAlt rest s k
                end
    | None => firstAlt rest s k
    end.
Proof. reflexivity. Qed.

Ltac tryKeywords name Hn :=
  repeat (rewrite firstAlt_step;
          match goal with
          | |- context [matchFold ?a ?b] =>
              let v := eval vm_compute in (matchFold a b) in
              change (matchFold a b) with v
          end; cbv iota beta);
  match goal with
  | |- context [keywordTail ?a ?n (Str.drop ?n ?s)] =>
      change (Str.drop n s) with (String " "%char name);
      rewrite (keywordTail_name a n name Hn)
  end.

Lemma keywordLine_match kws kw name :
  (kws = sectionKeywords \/ kws = directiveKeywords) -> In kw kws ->
  nameOnly name = true ->
  keywordLineRe kws (kw ++ " " ++ name)
  = Some (0, String.length kw, String.length kw + 1,
          String.length kw + 1 + String.length name).
Proof.
  intros Hk Hin Hn.
  destruct Hk as [-> | ->]; simpl in Hin;
    repeat (destruct Hin as [<-|Hin];
            [rewrite keywordLineRe_unfold;
             match goal with
             | |- context [Re.span Re.isSpace ?s] =>
                 change (Re.span Re.isSpace s) with 0
             end;
             match goal with
             | |- context [Str.drop 0 ?s] => change (Str.drop 0 s) with s
             end;
             unfold sectionKeywords, directiveKeywords;
             tryKeywords name Hn; reflexivity|]);
    destruct Hin.
Qed.

Lemma take_all s : Str.take (String.length s) s = s.
Proof. induction s as [|c s IH]; [reflexivity|simpl; rewrite IH; reflexivity]. Qed.

Lemma keyword_quoteFree kws kw :
  (kws = sectionKeywords \/ kws = directiveKeywords) -> In kw kws ->
  quoteFree kw = true.
Proof.
  intros Hk Hin.
  assert (H : forallb quoteFree kws = true)
    by (destruct Hk as [-> | ->]; reflexivity).
  rewrite forallb_forall in H. apply H, Hin.
Qed.

Lemma keywordLine_slices kws kw name :
  (kws = sectionKeywords \/ kws = directiveKeywords) -> In kw kws ->
  nameOnly name = true -> quoteFree name = true ->
  NoQuotes (kw ++ " " ++ name) "x" = kw ++ " " ++ name /\
  Str.slice 0 (String.length kw) (kw ++ " " ++ name) = kw /\
  Str.slice (String.length kw + 1) (String.length kw + 1 + String.length name)
    (kw ++ " " ++ name) = name.
Proof.
  intros Hk Hin Hn Hq. split; [|split].
  - apply noQuotes_quoteFree.
    rewrite quoteFree_app, (keyword_quoteFree kws kw Hk Hin).
    simpl. exact Hq.
  - unfold Str.slice. rewrite Nat.sub_0_r. apply take_app.
  - unfold Str.slice.
    replace (String.length kw + 1 + String.length name - (String.length kw + 1))
      with (String.length name) by lia.
    destruct (take_drop_at kw " "%char name) as [_ Hd].
    change (kw ++ " " ++ name) with (kw ++ String " "%char name).
    rewrite Hd. apply take_all.
Qed.

(** X26: For a section token whose keyword is section or segment in lower
    case and whose name holds no white space, no ; and no quote character,
    ParseSectionToken of its String() gives back the token and leaves no
    text. *)
Theorem section_round_trip :
  forall t,
    In (SecKeyword t) sectionKeywords ->
    nameOnly (Name t) = true -> quoteFree (Name t) = true ->
    ParseSectionToken (SectionString t) = (Some (TSection t), "").
Proof.
  intros [kw name] Hin Hn Hq. simpl in *.
  unfold SectionString, ParseSectionToken. simpl SecKeyword. simpl Name.
  destruct (keywordLine_slices sectionKeywords kw name (or_introl eq_refl)
              Hin Hn Hq) as (Hnoq & Hk & Hname).
  rewrite Hnoq, (keywordLine_match sectionKeywords kw name (or_introl eq_refl)
                   Hin Hn), Hk, Hname.
  reflexivity.
Qed.

(** X27: For a directive token whose keyword is one of default, absolute,
    extern, global, common, cpu, float in lower case and whose argument
    holds no white space, no ; and no quote character, ParseDirectiveToken
    of its String() gives back the token and leaves no text. *)
Theorem directive_round_trip :
  forall t,
    In (DirKeyword t) directiveKeywords ->
    nameOnly (DirText t) = true -> quoteFree (DirText t) = true ->
    ParseDirectiveToken (DirectiveString t) = (Some (TDirective t), "").
Proof.
  intros [kw name] Hin Hn Hq. simpl in *.
  unfold DirectiveString, ParseDirectiveToken. simpl DirKeyword. simpl DirText.
  destruct (keywordLine_slices directiveKeywords kw name (or_intror eq_refl)
              Hin Hn Hq) as (Hnoq & Hk & Hname).
  rewrite Hnoq, (keywordLine_match directiveKeywords kw name (or_intror eq_refl)
                   Hin Hn), Hk, Hname.
  reflexivity.
Qed.

Lemma section_round_trip_witness :
  ParseSectionToken (SectionString {| SecKeyword := "section"; Name := ".text" |})
  = (Some (TSection {| SecKeyword := "section"; Name := ".text" |}), "").
Proof.
  apply (section_round_trip {| SecKeyword := "section"; Name := ".text" |});
    [left; reflexivity|reflexivity|reflexivity].
Defined.

Lemma directive_round_trip_witness :
  ParseDirectiveToken (DirectiveString {| DirKeyword := "global"; DirText := "_start" |})
  = (Some (TDirective {| DirKeyword := "global"; DirText := "_start" |}), "").
Proof.
  apply (directive_round_trip {| DirKeyword := "global"; DirText := "_start" |});
    [simpl; tauto|reflexivity|reflexivity].
Defined.

End Props.
